(** * Shotify: clip playback orchestration, checked against its specification

    A shallow embedding of [src/utils.ts] ([shuffle], [generateRandomString],
    [base64UrlEncode]) and of
    the playback part of [src/App.tsx] (the callbacks [playTrackAtIndex],
    [handlePause], [handleResume], [handleNext], [handlePrev], the interval
    callbacks they install, and the playlist-tracks effect).

    Conventions.
    - JavaScript numbers that carry time ([performance.now()], elapsed
      milliseconds, [currentTime]) and the results of [Math.random()] are
      rationals ([Q]); array indices and counters are [nat].
    - [string | null] is [option string]; JavaScript truthiness of such a
      value ([null] and the empty string are falsy) is [truthy].
    - Handles returned by [window.setInterval] and object identities of
      [Audio] elements and arrays are [positive] numbers. *)

From Stdlib Require Import QArith Qround Ascii.
From stdpp Require Import gmap strings list fin_maps.

Local Open Scope nat_scope.

(** ** utils.ts *)

Module Utils.

(** Identity of a JavaScript array object. *)
Abbreviation ref := positive.

Section Shuffle.
Context {T : Type}.

(** The arrays that exist, by identity. *)
Abbreviation heap := (gmap positive (list T)).

(** [Math.floor(r * (i + 1))] for [r] a result of [Math.random()]. *)
Definition random_index (r : Q) (i : nat) : nat :=
  Z.to_nat (Qfloor (r * inject_Z (Z.of_nat (i + 1)))).

(** [[out[i], out[j]] = [out[j], out[i]]]: the right-hand side is built
    first, then [out[i]] and [out[j]] are written in that order.  An index
    outside the array (JavaScript would read [undefined] and grow the
    array) is outside this model: the result is [None]. *)
Definition swap_in_place (out : ref) (i j : nat) (h : heap) : option heap :=
  arr ← h !! out;
  oj ← arr !! j;
  oi ← arr !! i;
  Some (<[out := <[j := oi]> (<[i := oj]> arr)]> h).

(** [for (let i = out.length - 1; i > 0; i--) { ... }]; [calls] counts the
    calls of [Math.random()] made so far, [rnd k] is the result of call
    number [k]. *)
Fixpoint shuffle_loop (rnd : nat → Q) (calls : nat) (i : nat) (out : ref)
    (h : heap) : option heap :=
  match i with
  | O => Some h
  | S i' =>
      let j := random_index (rnd calls) i in
      h' ← swap_in_place out i j h;
      shuffle_loop rnd (S calls) i' out h'
  end.

(** [const out = [...array]; for ...; return out] *)
Definition shuffle (rnd : nat → Q) (array : ref) (h : heap)
    : option (ref * heap) :=
  arr ← h !! array;
  let out := fresh (dom h) in
  let h1 := <[out := arr]> h in
  h2 ← shuffle_loop rnd 0 (length arr - 1) out h1;
  Some (out, h2).

(** The contents of the array that [shuffle] returns, for callers that pass
    a fresh literal ([shuffle([...all])]) and keep only the result. *)
Definition shuffled (rnd : nat → Q) (l : list T) : list T :=
  match shuffle rnd 1%positive {[ 1%positive := l ]} with
  | Some (out, h) => default l (h !! out)
  | None => l
  end.

End Shuffle.

(** The contract of [Math.random()]: a number in [0, 1). *)
Definition random_source (rnd : nat → Q) : Prop :=
∀ k, (0 <= rnd k)%Q ∧ (rnd k < 1)%Q.

(** A source that always answers one half. *)
Definition rnd_half : nat → Q := λ _, (1 # 2)%Q.

(** *** generateRandomString, base64UrlEncode *)

(** Strings that these two functions build character by character are
    lists of characters while they are built, and [string]s when they are
    returned. *)

Definition possible : string :=
  "ABCDEFGHIJKLMNOPQRSTUVWXYZabcdefghijklmnopqrstuvwxyz0123456789".

(** [s.charAt(i)]: the character at [i] as a string of length one, and the
    empty string when [i] is outside [s]. *)
Definition charAt (s : string) (i : Z) : list Ascii.ascii :=
  if (i <? 0)%Z then []
  else match String.get (Z.to_nat i) s with
       | Some c => [c]
       | None => []
       end.

(** [for (let i = 0; i < length; i += 1) text += possible.charAt(...)];
    [n] iterations are left, [calls] results of [Math.random()] are used. *)
Fixpoint generate_loop (rnd : nat → Q) (calls n : nat) (text : list Ascii.ascii)
    : list Ascii.ascii :=
  match n with
  | O => text
  | S n' =>
      let j := Qfloor (rnd calls
                       * inject_Z (Z.of_nat (String.length possible))) in
      generate_loop rnd (S calls) n' (text ++ charAt possible j)
  end.

(** Generate a random alphanumeric string of given length. *)
Definition generateRandomString (rnd : nat → Q) (length : Z) : string :=
  String.string_of_list_ascii (generate_loop rnd 0 (Z.to_nat length) []).

(** [A-Za-z0-9] *)
Definition alphanumeric (c : Ascii.ascii) : bool :=
  let n := Ascii.nat_of_ascii c in
  ((65 <=? n) && (n <=? 90)) || ((97 <=? n) && (n <=? 122))
  || ((48 <=? n) && (n <=? 57)).

(** The browser's [btoa]: Base64 with the standard alphabet and [=]
    padding (RFC 4648), three bytes to four characters. *)
Definition b64alphabet : string :=
  "ABCDEFGHIJKLMNOPQRSTUVWXYZabcdefghijklmnopqrstuvwxyz0123456789+/".

Definition b64char (n : nat) : Ascii.ascii :=
  default "="%char (String.get n b64alphabet).

Fixpoint btoa (binary : list Ascii.ascii) : list Ascii.ascii :=
  match binary with
  | [] => []
  | [a] =>
      let a := Ascii.nat_of_ascii a in
      [b64char (a / 4); b64char ((a mod 4) * 16); "="%char; "="%char]
  | [a; b] =>
      let a := Ascii.nat_of_ascii a in
      let b := Ascii.nat_of_ascii b in
      [b64char (a / 4); b64char ((a mod 4) * 16 + b / 16);
       b64char ((b mod 16) * 4); "="%char]
  | a :: b :: c :: rest =>
      let a := Ascii.nat_of_ascii a in
      let b := Ascii.nat_of_ascii b in
      let c := Ascii.nat_of_ascii c in
      b64char (a / 4) :: b64char ((a mod 4) * 16 + b / 16)
      :: b64char ((b mod 16) * 4 + c / 64) :: b64char (c mod 64)
      :: btoa rest
  end.

(** [s.replace(/x/g, y)] for single characters [x] and [y]. *)
Definition replaceAll (x y : Ascii.ascii) (s : list Ascii.ascii) : list Ascii.ascii :=
  (λ c, if Ascii.eqb c x then y else c) <$> s.

(** [s.replace(/x+$/, '')]: drop the run of [x] at the end, if any. *)
Fixpoint dropTrailing (x : Ascii.ascii) (s : list Ascii.ascii) : list Ascii.ascii :=
  match s with
  | [] => []
  | c :: s' =>
      match dropTrailing x s' with
      | [] => if Ascii.eqb c x then [] else [c]
      | r => c :: r
      end
  end.

(** Base64url-encode an ArrayBuffer (no +, /, or = padding; for PKCE). *)
Definition base64UrlEncode (input : list Byte.byte) : string :=
  let binary := Ascii.ascii_of_byte <$> input in
  String.string_of_list_ascii
    (dropTrailing "="
       (replaceAll "/" "_" (replaceAll "+" "-" (btoa binary)))).

(** [A-Za-z0-9_-], the characters of base64url without padding. *)
Definition urlSafe (c : Ascii.ascii) : bool :=
  alphanumeric c || Ascii.eqb c "-" || Ascii.eqb c "_".

(** The two replacements of [base64UrlEncode], on one character. *)
Definition urlChar (c : Ascii.ascii) : Ascii.ascii :=
  if Ascii.eqb (if Ascii.eqb c "+" then "-"%char else c) "/"
  then "_"%char else if Ascii.eqb c "+" then "-"%char else c.

End Utils.

(** ** App.tsx: data *)

Module App.

Record Track := {
  id : string;
  uri : option string;
  name : string;
  artists : list string;
  albumImage : option string;
  previewUrl : option string;
  addedAt : string;
  addedBy : string;
  addedById : option string;
  addedByImageUrl : option string
}.

Record UserProfile := {
  displayName : string;
  imageUrl : option string
}.

(** Web Playback SDK: start at 45s, play for 60s. *)
Definition SDK_CLIP_START_MS : Q := 45000 # 1.
Definition SDK_CLIP_DURATION_MS : Q := 60000 # 1.
(** Preview fallback: start at 0, play 30s. *)
Definition PREVIEW_CLIP_DURATION_MS : Q := 30000 # 1.

(** Truthiness of a [string | null]: [null] and the empty string are falsy. *)
Definition truthy (o : option string) : bool :=
  match o with
  | Some s => negb (String.eqb s EmptyString)
  | None => false
  end.

(** The values of one render that [playTrackAtIndex] and the callbacks it
    creates close over (the dependency list of its [useCallback]). *)
Record Scope := {
  sc_tracks : list Track;
  sc_accessToken : option string;
  sc_playerReady : bool;
  sc_deviceId : option string
}.

(** The functions that the program hands to the browser, as data: each
    constructor is one function expression of [App.tsx] together with the
    variables it captures. *)
Inductive Callback :=
  (** rest of [playTrackAtIndex] after [await fetch(.../play)] *)
  | SdkStarted (sc : Scope) (index : nat)
  (** rest of [handleResume] after [await fetch(.../play)] *)
  | SdkResumed (sc : Scope) (index : nat) (startElapsed : Q)
  (** [doAdvance] of [playTrackAtIndex]; [inBetweenUrl] was read by the tick *)
  | DoAdvance (sc : Scope) (nextIndex : nat) (inBetweenUrl : option string)
  (** [() => doAdvance(nextIndex)] of [handleResume] *)
  | DoAdvanceResume (sc : Scope) (nextIndex : nat)
  (** [onended] and the [catch] of [play()] of the in-between audio *)
  | InBetweenDone (sc : Scope) (nextIndex : nat)
  (** [() => playTrackAtIndex(nextIndex)] given to [setTimeout] *)
  | PlayNext (sc : Scope) (nextIndex : nat)
  (** [advanceToNext] of [playTrackAtIndex] (preview) *)
  | AdvanceToNext (sc : Scope) (index : nat)
  (** [advanceToNext] of [handleResume] (preview) *)
  | AdvanceToNextResume (sc : Scope) (index : nat)
  (** the [catch] of [audio.play()] in [playTrackAtIndex] *)
  | PreviewPlayFailed
  (** the [catch] of [audio.play()] in [handleResume] *)
  | PreviewResumeFailed
  (** rest of [handlePause] after [await fetch(.../pause)] *)
  | PauseSettled
  (** the [then] of one [fetchPage()] of the playlist-tracks effect *)
  | PageFetched (playlistId accessToken : option string) (all : list Track)
      (offset : nat)
  (** the [then] of [Promise.all] over the user requests *)
  | ProfilesFetched (userIds : list string).

(** The four interval callbacks ([window.setInterval(..., 100)]). *)
Inductive Ticker :=
  | SdkTick (sc : Scope) (index : nat) (start : Q)
  | PreviewTick (sc : Scope) (index : nat) (start : Q)
  | SdkResumeTick (sc : Scope) (index : nat) (startElapsed start : Q)
  | PreviewResumeTick (sc : Scope) (index : nat) (startElapsed start : Q).

Inductive Request :=
  (** [PUT /v1/me/player/play?device_id=...] with [uris] and [position_ms] *)
  | PlayerPlay (device_id accessToken trackUri : option string) (position_ms : Q)
  (** [PUT /v1/me/player/pause?device_id=...] *)
  | PlayerPause (device_id accessToken : option string)
  (** [GET /v1/playlists/{id}/items?limit=100&offset=...] *)
  | PlaylistItems (playlistId accessToken : option string) (offset : nat)
  (** [GET /v1/users/{id}], one per id *)
  | Users (userIds : list string).

(** What leaves the component, newest first in [trace]: Web API requests,
    operations on audio elements, timers, console messages, and the index
    of the track handed to the view as now playing. *)
Inductive Effect :=
  | Fetch (req : Request) (k : Callback)
  | NewAudio (h : positive) (url : option string)
  | AudioPlay (h : positive) (onRejected : Callback)
  | AudioPause (h : positive)
  | SetInterval (h : positive) (t : Ticker)
  | ClearInterval (h : positive)
  | SetTimeout (ms : nat) (k : Callback)
  | ConsoleWarn (msg detail : string)
  | ConsoleError (msg : string)
  | ShowCurrentIndex (i : option nat).

(** An [HTMLAudioElement]: [currentTime] (seconds) and [volume] hold the
    last value assigned; [paused] is false from [play()] until [pause()]. *)
Record AudioEl := {
  src : option string;
  currentTime : Q;
  volume : Q;
  paused : bool;
  onended : option Callback
}.

(** The [useState] cells. *)
Record Cells := {
  accessToken : option string;
  deviceId : option string;
  playerReady : bool;
  selectedPlaylistId : option string;
  tracks : list Track;
  tracksLoading : bool;
  userProfiles : gmap string UserProfile;
  currentIndex : option nat;
  isPlaying : bool;
  clipElapsedMs : Q;
  clipDurationMs : Q;
  songsPlayed : nat;
  selectedInBetweenSoundUrl : option string
}.

(** The [useRef] cells.  [selectedInBetweenSoundRef] is assigned
    [selectedInBetweenSoundUrl] on every render and is read as that cell. *)
Record Refs := {
  clipTimerRef : option positive;
  audioRef : option positive;
  inBetweenAudioRef : option positive;
  useSdkRef : bool;
  hasAdvancedRef : bool
}.

(** The browser: live intervals, audio elements, the next free handle, the
    reading of [performance.now()], the results [Math.random()] will give
    and how many were taken, and the trace. *)
Record Browser := {
  intervals : gmap positive Ticker;
  audios : gmap positive AudioEl;
  nextId : positive;
  now : Q;
  rnd : nat → Q;
  rndCalls : nat;
  trace : list Effect
}.

Record World := {
  ui : Cells;
  refs : Refs;
  env : Browser
}.

(** Record updates: [cells_f v s] is [s] with field [f] set to [v], and
    likewise for the other records. *)
Definition cells_deviceId (v : option string) (s : Cells) : Cells :=
  {| accessToken := accessToken s; deviceId := v;
     playerReady := playerReady s;
     selectedPlaylistId := selectedPlaylistId s; tracks := tracks s;
     tracksLoading := tracksLoading s; userProfiles := userProfiles s;
     currentIndex := currentIndex s; isPlaying := isPlaying s;
     clipElapsedMs := clipElapsedMs s; clipDurationMs := clipDurationMs s;
     songsPlayed := songsPlayed s;
     selectedInBetweenSoundUrl := selectedInBetweenSoundUrl s |}.
Definition cells_playerReady (v : bool) (s : Cells) : Cells :=
  {| accessToken := accessToken s; deviceId := deviceId s;
     playerReady := v; selectedPlaylistId := selectedPlaylistId s;
     tracks := tracks s; tracksLoading := tracksLoading s;
     userProfiles := userProfiles s; currentIndex := currentIndex s;
     isPlaying := isPlaying s; clipElapsedMs := clipElapsedMs s;
     clipDurationMs := clipDurationMs s; songsPlayed := songsPlayed s;
     selectedInBetweenSoundUrl := selectedInBetweenSoundUrl s |}.
Definition cells_selectedPlaylistId (v : option string) (s : Cells) : Cells :=
  {| accessToken := accessToken s; deviceId := deviceId s;
     playerReady := playerReady s; selectedPlaylistId := v;
     tracks := tracks s; tracksLoading := tracksLoading s;
     userProfiles := userProfiles s; currentIndex := currentIndex s;
     isPlaying := isPlaying s; clipElapsedMs := clipElapsedMs s;
     clipDurationMs := clipDurationMs s; songsPlayed := songsPlayed s;
     selectedInBetweenSoundUrl := selectedInBetweenSoundUrl s |}.
Definition cells_tracks (v : list Track) (s : Cells) : Cells :=
  {| accessToken := accessToken s; deviceId := deviceId s;
     playerReady := playerReady s;
     selectedPlaylistId := selectedPlaylistId s; tracks := v;
     tracksLoading := tracksLoading s; userProfiles := userProfiles s;
     currentIndex := currentIndex s; isPlaying := isPlaying s;
     clipElapsedMs := clipElapsedMs s; clipDurationMs := clipDurationMs s;
     songsPlayed := songsPlayed s;
     selectedInBetweenSoundUrl := selectedInBetweenSoundUrl s |}.
Definition cells_tracksLoading (v : bool) (s : Cells) : Cells :=
  {| accessToken := accessToken s; deviceId := deviceId s;
     playerReady := playerReady s;
     selectedPlaylistId := selectedPlaylistId s; tracks := tracks s;
     tracksLoading := v; userProfiles := userProfiles s;
     currentIndex := currentIndex s; isPlaying := isPlaying s;
     clipElapsedMs := clipElapsedMs s; clipDurationMs := clipDurationMs s;
     songsPlayed := songsPlayed s;
     selectedInBetweenSoundUrl := selectedInBetweenSoundUrl s |}.
Definition cells_userProfiles (v : gmap string UserProfile) (s : Cells)
    : Cells :=
  {| accessToken := accessToken s; deviceId := deviceId s;
     playerReady := playerReady s;
     selectedPlaylistId := selectedPlaylistId s; tracks := tracks s;
     tracksLoading := tracksLoading s; userProfiles := v;
     currentIndex := currentIndex s; isPlaying := isPlaying s;
     clipElapsedMs := clipElapsedMs s; clipDurationMs := clipDurationMs s;
     songsPlayed := songsPlayed s;
     selectedInBetweenSoundUrl := selectedInBetweenSoundUrl s |}.
Definition cells_currentIndex (v : option nat) (s : Cells) : Cells :=
  {| accessToken := accessToken s; deviceId := deviceId s;
     playerReady := playerReady s;
     selectedPlaylistId := selectedPlaylistId s; tracks := tracks s;
     tracksLoading := tracksLoading s; userProfiles := userProfiles s;
     currentIndex := v; isPlaying := isPlaying s;
     clipElapsedMs := clipElapsedMs s; clipDurationMs := clipDurationMs s;
     songsPlayed := songsPlayed s;
     selectedInBetweenSoundUrl := selectedInBetweenSoundUrl s |}.
Definition cells_isPlaying (v : bool) (s : Cells) : Cells :=
  {| accessToken := accessToken s; deviceId := deviceId s;
     playerReady := playerReady s;
     selectedPlaylistId := selectedPlaylistId s; tracks := tracks s;
     tracksLoading := tracksLoading s; userProfiles := userProfiles s;
     currentIndex := currentIndex s; isPlaying := v;
     clipElapsedMs := clipElapsedMs s; clipDurationMs := clipDurationMs s;
     songsPlayed := songsPlayed s;
     selectedInBetweenSoundUrl := selectedInBetweenSoundUrl s |}.
Definition cells_clipElapsedMs (v : Q) (s : Cells) : Cells :=
  {| accessToken := accessToken s; deviceId := deviceId s;
     playerReady := playerReady s;
     selectedPlaylistId := selectedPlaylistId s; tracks := tracks s;
     tracksLoading := tracksLoading s; userProfiles := userProfiles s;
     currentIndex := currentIndex s; isPlaying := isPlaying s;
     clipElapsedMs := v; clipDurationMs := clipDurationMs s;
     songsPlayed := songsPlayed s;
     selectedInBetweenSoundUrl := selectedInBetweenSoundUrl s |}.
Definition cells_clipDurationMs (v : Q) (s : Cells) : Cells :=
  {| accessToken := accessToken s; deviceId := deviceId s;
     playerReady := playerReady s;
     selectedPlaylistId := selectedPlaylistId s; tracks := tracks s;
     tracksLoading := tracksLoading s; userProfiles := userProfiles s;
     currentIndex := currentIndex s; isPlaying := isPlaying s;
     clipElapsedMs := clipElapsedMs s; clipDurationMs := v;
     songsPlayed := songsPlayed s;
     selectedInBetweenSoundUrl := selectedInBetweenSoundUrl s |}.
Definition cells_songsPlayed (v : nat) (s : Cells) : Cells :=
  {| accessToken := accessToken s; deviceId := deviceId s;
     playerReady := playerReady s;
     selectedPlaylistId := selectedPlaylistId s; tracks := tracks s;
     tracksLoading := tracksLoading s; userProfiles := userProfiles s;
     currentIndex := currentIndex s; isPlaying := isPlaying s;
     clipElapsedMs := clipElapsedMs s; clipDurationMs := clipDurationMs s;
     songsPlayed := v;
     selectedInBetweenSoundUrl := selectedInBetweenSoundUrl s |}.
Definition cells_selectedInBetweenSoundUrl (v : option string) (s : Cells)
    : Cells :=
  {| accessToken := accessToken s; deviceId := deviceId s;
     playerReady := playerReady s;
     selectedPlaylistId := selectedPlaylistId s; tracks := tracks s;
     tracksLoading := tracksLoading s; userProfiles := userProfiles s;
     currentIndex := currentIndex s; isPlaying := isPlaying s;
     clipElapsedMs := clipElapsedMs s; clipDurationMs := clipDurationMs s;
     songsPlayed := songsPlayed s; selectedInBetweenSoundUrl := v |}.

Definition refs_clipTimerRef (v : option positive) (s : Refs) : Refs :=
  {| clipTimerRef := v; audioRef := audioRef s;
     inBetweenAudioRef := inBetweenAudioRef s; useSdkRef := useSdkRef s;
     hasAdvancedRef := hasAdvancedRef s |}.
Definition refs_audioRef (v : option positive) (s : Refs) : Refs :=
  {| clipTimerRef := clipTimerRef s; audioRef := v;
     inBetweenAudioRef := inBetweenAudioRef s; useSdkRef := useSdkRef s;
     hasAdvancedRef := hasAdvancedRef s |}.
Definition refs_inBetweenAudioRef (v : option positive) (s : Refs) : Refs :=
  {| clipTimerRef := clipTimerRef s; audioRef := audioRef s;
     inBetweenAudioRef := v; useSdkRef := useSdkRef s;
     hasAdvancedRef := hasAdvancedRef s |}.
Definition refs_useSdkRef (v : bool) (s : Refs) : Refs :=
  {| clipTimerRef := clipTimerRef s; audioRef := audioRef s;
     inBetweenAudioRef := inBetweenAudioRef s; useSdkRef := v;
     hasAdvancedRef := hasAdvancedRef s |}.
Definition refs_hasAdvancedRef (v : bool) (s : Refs) : Refs :=
  {| clipTimerRef := clipTimerRef s; audioRef := audioRef s;
     inBetweenAudioRef := inBetweenAudioRef s; useSdkRef := useSdkRef s;
     hasAdvancedRef := v |}.

Definition env_intervals (v : gmap positive Ticker) (s : Browser) : Browser :=
  {| intervals := v; audios := audios s; nextId := nextId s; now := now s;
     rnd := rnd s; rndCalls := rndCalls s; trace := trace s |}.
Definition env_audios (v : gmap positive AudioEl) (s : Browser) : Browser :=
  {| intervals := intervals s; audios := v; nextId := nextId s;
     now := now s; rnd := rnd s; rndCalls := rndCalls s;
     trace := trace s |}.
Definition env_nextId (v : positive) (s : Browser) : Browser :=
  {| intervals := intervals s; audios := audios s; nextId := v;
     now := now s; rnd := rnd s; rndCalls := rndCalls s;
     trace := trace s |}.
Definition env_now (v : Q) (s : Browser) : Browser :=
  {| intervals := intervals s; audios := audios s; nextId := nextId s;
     now := v; rnd := rnd s; rndCalls := rndCalls s; trace := trace s |}.
Definition env_rndCalls (v : nat) (s : Browser) : Browser :=
  {| intervals := intervals s; audios := audios s; nextId := nextId s;
     now := now s; rnd := rnd s; rndCalls := v; trace := trace s |}.
Definition env_trace (v : list Effect) (s : Browser) : Browser :=
  {| intervals := intervals s; audios := audios s; nextId := nextId s;
     now := now s; rnd := rnd s; rndCalls := rndCalls s; trace := v |}.

Definition el_currentTime (v : Q) (a : AudioEl) : AudioEl :=
  {| src := src a; currentTime := v; volume := volume a; paused := paused a;
     onended := onended a |}.
Definition el_volume (v : Q) (a : AudioEl) : AudioEl :=
  {| src := src a; currentTime := currentTime a; volume := v;
     paused := paused a; onended := onended a |}.
Definition el_paused (v : bool) (a : AudioEl) : AudioEl :=
  {| src := src a; currentTime := currentTime a; volume := volume a;
     paused := v; onended := onended a |}.
Definition el_onended (v : option Callback) (a : AudioEl) : AudioEl :=
  {| src := src a; currentTime := currentTime a; volume := volume a;
     paused := paused a; onended := v |}.

Definition on_ui (f : Cells → Cells) (w : World) : World :=
  {| ui := f (ui w); refs := refs w; env := env w |}.
Definition on_refs (f : Refs → Refs) (w : World) : World :=
  {| ui := ui w; refs := f (refs w); env := env w |}.
Definition on_env (f : Browser → Browser) (w : World) : World :=
  {| ui := ui w; refs := refs w; env := f (env w) |}.

(** The render-time values a callback created now would capture. *)
Definition scope_of (w : World) : Scope :=
  {| sc_tracks := tracks (ui w); sc_accessToken := accessToken (ui w);
     sc_playerReady := playerReady (ui w); sc_deviceId := deviceId (ui w) |}.

(** ** A state monad over the world *)

Definition M (A : Type) : Type := World → A * World.

#[global] Instance M_ret : MRet M := λ A x w, (x, w).
#[global] Instance M_bind : MBind M :=
  λ A B f m w, let (a, w') := m w in f a w'.

Definition exec {A} (m : M A) (w : World) : World := snd (m w).
Definition get {A} (f : World → A) : M A := λ w, (f w, w).
Definition modify (f : World → World) : M unit := λ w, (tt, f w).
Definition skip : M unit := mret tt.

(** *** Browser operations *)

Definition emit (e : Effect) : M unit :=
  modify (on_env (λ b, env_trace (e :: trace b) b)).

Definition console_warn (msg detail : string) : M unit :=
  emit (ConsoleWarn msg detail).
Definition console_error (msg : string) : M unit := emit (ConsoleError msg).
Definition fetch (req : Request) (k : Callback) : M unit := emit (Fetch req k).
Definition setTimeout (k : Callback) (ms : nat) : M unit :=
  emit (SetTimeout ms k).

Definition performance_now : M Q := get (λ w, now (env w)).

Definition alloc : M positive :=
  λ w, (nextId (env w), on_env (env_nextId (Pos.succ (nextId (env w)))) w).

Definition window_setInterval (t : Ticker) : M positive :=
  h ← alloc;
  modify (on_env (λ b, env_intervals (<[h := t]> (intervals b)) b));;
  emit (SetInterval h t);;
  mret h.

Definition window_clearInterval (h : positive) : M unit :=
  modify (on_env (λ b, env_intervals (delete h (intervals b)) b));;
  emit (ClearInterval h).

Definition new_Audio (url : option string) : M positive :=
  h ← alloc;
  modify (on_env (λ b, env_audios
    (<[h := {| src := url; currentTime := 0; volume := 1; paused := true;
               onended := None |}]> (audios b)) b));;
  emit (NewAudio h url);;
  mret h.

Definition audio_update (f : AudioEl → AudioEl) (h : positive) : M unit :=
  modify (on_env (λ b, env_audios (alter f h (audios b)) b)).

Definition audio_pause (h : positive) : M unit :=
  audio_update (el_paused true) h;; emit (AudioPause h).
Definition audio_play (h : positive) (onRejected : Callback) : M unit :=
  audio_update (el_paused false) h;; emit (AudioPlay h onRejected).
Definition audio_set_currentTime (h : positive) (t : Q) : M unit :=
  audio_update (el_currentTime t) h.
Definition audio_set_volume (h : positive) (v : Q) : M unit :=
  audio_update (el_volume v) h.
Definition audio_set_onended (h : positive) (k : Callback) : M unit :=
  audio_update (el_onended (Some k)) h.

(** [shuffle([...all])]: the draws are taken from the browser's source. *)
Definition shuffle_tracks (all : list Track) : M (list Track) :=
  r ← get (λ w, rnd (env w));
  n ← get (λ w, rndCalls (env w));
  modify (on_env (env_rndCalls (n + (length all - 1))));;
  mret (Utils.shuffled (λ k, r (n + k)) all).

(** *** State setters and ref assignments *)

Definition setDeviceId (v : option string) : M unit :=
  modify (on_ui (cells_deviceId v)).
Definition setPlayerReady (v : bool) : M unit :=
  modify (on_ui (cells_playerReady v)).
Definition setSelectedPlaylistId (v : option string) : M unit :=
  modify (on_ui (cells_selectedPlaylistId v)).
Definition setSelectedInBetweenSoundUrl (v : option string) : M unit :=
  modify (on_ui (cells_selectedInBetweenSoundUrl v)).
Definition setTracks (v : list Track) : M unit := modify (on_ui (cells_tracks v)).
Definition setTracksLoading (v : bool) : M unit :=
  modify (on_ui (cells_tracksLoading v)).
Definition setUserProfiles (v : gmap string UserProfile) : M unit :=
  modify (on_ui (cells_userProfiles v)).
Definition setCurrentIndex (v : option nat) : M unit :=
  modify (on_ui (cells_currentIndex v));; emit (ShowCurrentIndex v).
Definition setIsPlaying (v : bool) : M unit := modify (on_ui (cells_isPlaying v)).
Definition setClipElapsedMs (v : Q) : M unit :=
  modify (on_ui (cells_clipElapsedMs v)).
Definition setClipDurationMs (v : Q) : M unit :=
  modify (on_ui (cells_clipDurationMs v)).
Definition setSongsPlayed (f : nat → nat) : M unit :=
  modify (on_ui (λ c, cells_songsPlayed (f (songsPlayed c)) c)).

Definition set_clipTimerRef (v : option positive) : M unit :=
  modify (on_refs (refs_clipTimerRef v)).
Definition set_audioRef (v : option positive) : M unit :=
  modify (on_refs (refs_audioRef v)).
Definition set_inBetweenAudioRef (v : option positive) : M unit :=
  modify (on_refs (refs_inBetweenAudioRef v)).
Definition set_useSdkRef (v : bool) : M unit :=
  modify (on_refs (refs_useSdkRef v)).
Definition set_hasAdvancedRef (v : bool) : M unit :=
  modify (on_refs (refs_hasAdvancedRef v)).

(** ** App.tsx: playback *)

(** Clear the interval that drives clip progress and auto-advance. *)
Definition clearClipTimer : M unit :=
  t ← get (λ w, clipTimerRef (refs w));
  match t with
  | Some h => window_clearInterval h;; set_clipTimerRef None
  | None => skip
  end.

(** [playerReady && deviceId && track.uri] *)
Definition canUseSdk (sc : Scope) (track : Track) : bool :=
  sc_playerReady sc && truthy (sc_deviceId sc) && truthy (uri track).

(** [!!track.previewUrl] *)
Definition canUsePreview (track : Track) : bool := truthy (previewUrl track).

(** [if (audioRef.current) { pause(); currentTime = 0; audioRef.current = null }] *)
Definition releaseAudio : M unit :=
  a ← get (λ w, audioRef (refs w));
  match a with
  | Some h => audio_pause h;; audio_set_currentTime h 0;; set_audioRef None
  | None => skip
  end.

(** [if (inBetweenAudioRef.current) { pause(); currentTime = 0; ... = null }],
    as written in [handlePause] and [handleResume]. *)
Definition releaseInBetween : M unit :=
  a ← get (λ w, inBetweenAudioRef (refs w));
  match a with
  | Some h =>
      audio_pause h;; audio_set_currentTime h 0;; set_inBetweenAudioRef None
  | None => skip
  end.

(** Start playing a track from the beginning. *)
Definition playTrackAtIndex (sc : Scope) (index : nat) : M unit :=
  match sc_tracks sc !! index with
  | None => skip
  | Some track =>
    if negb (truthy (sc_accessToken sc)) then skip else
    if negb (canUseSdk sc track) && negb (canUsePreview track) then
      console_warn "Track has no uri (SDK) or preview_url" (name track)
    else
      releaseAudio;;
      clearClipTimer;;
      setClipElapsedMs 0;;
      setCurrentIndex (Some index);;
      setIsPlaying true;;
      setSongsPlayed (λ prev, prev + 1);;
      set_hasAdvancedRef false;;
      if canUseSdk sc track then
        set_useSdkRef true;;
        setClipDurationMs SDK_CLIP_DURATION_MS;;
        fetch (PlayerPlay (sc_deviceId sc) (sc_accessToken sc) (uri track)
                 SDK_CLIP_START_MS)
              (SdkStarted sc index)
      else
        set_useSdkRef false;;
        setClipDurationMs PREVIEW_CLIP_DURATION_MS;;
        audio ← new_Audio (previewUrl track);
        set_audioRef (Some audio);;
        audio_set_volume audio (9 # 10);;
        audio_set_currentTime audio 0;;
        start ← performance_now;
        audio_set_onended audio (AdvanceToNext sc index);;
        audio_play audio PreviewPlayFailed;;
        t ← window_setInterval (PreviewTick sc index start);
        set_clipTimerRef (Some t)
  end.

(** After [await fetch(.../play)] in [playTrackAtIndex]: the [catch] when
    the request was rejected, else the interval is started. *)
Definition sdkStarted (sc : Scope) (index : nat) (ok : bool) : M unit :=
  if ok then
    start ← performance_now;
    t ← window_setInterval (SdkTick sc index start);
    set_clipTimerRef (Some t)
  else
    console_error "Failed to start SDK playback";;
    setIsPlaying false.

(** [doAdvance] of [playTrackAtIndex], with the [nextIndex] and
    [inBetweenUrl] it closes over as arguments; the same statements are the
    tail of its [advanceToNext] and the body of [doAdvance] of
    [handleResume].  Play the in-between sound and then the next track, or
    go to the next track after 300 ms. *)
Definition doAdvance (sc : Scope) (nextIndex : nat)
    (inBetweenUrl : option string) : M unit :=
  if truthy inBetweenUrl then
    stale ← get (λ w, inBetweenAudioRef (refs w));
    match stale with
    | Some h => audio_pause h;; set_inBetweenAudioRef None
    | None => skip
    end;;
    inBetweenAudio ← new_Audio inBetweenUrl;
    set_inBetweenAudioRef (Some inBetweenAudio);;
    audio_set_onended inBetweenAudio (InBetweenDone sc nextIndex);;
    audio_play inBetweenAudio (InBetweenDone sc nextIndex)
  else
    setCurrentIndex (Some nextIndex);;
    setTimeout (PlayNext sc nextIndex) 300.

(** [doAdvance] of [handleResume]: it reads the selection when it runs. *)
Definition doAdvanceResume (sc : Scope) (nextIndex : nat) : M unit :=
  inBetweenUrl ← get (λ w, selectedInBetweenSoundUrl (ui w));
  doAdvance sc nextIndex inBetweenUrl.

(** [onended] of the in-between audio, and the [catch] of its [play()]. *)
Definition inBetweenDone (sc : Scope) (nextIndex : nat) : M unit :=
  set_inBetweenAudioRef None;;
  setCurrentIndex (Some nextIndex);;
  playTrackAtIndex sc nextIndex.

(** [advanceToNext] of [playTrackAtIndex] and of [handleResume]. *)
Definition advanceToNext (sc : Scope) (index : nat) : M unit :=
  adv ← get (λ w, hasAdvancedRef (refs w));
  if adv : bool then skip else
    set_hasAdvancedRef true;;
    clearClipTimer;;
    setClipElapsedMs PREVIEW_CLIP_DURATION_MS;;
    setIsPlaying false;;
    releaseAudio;;
    let nextIndex := (index + 1) mod length (sc_tracks sc) in
    inBetweenUrl ← get (λ w, selectedInBetweenSoundUrl (ui w));
    doAdvance sc nextIndex inBetweenUrl.

(** The interval callback of the SDK branch of [playTrackAtIndex]. *)
Definition sdkTick (sc : Scope) (index : nat) (start : Q) : M unit :=
  t ← performance_now;
  let elapsed := (t - start)%Q in
  if Qle_bool SDK_CLIP_DURATION_MS elapsed then
    adv ← get (λ w, hasAdvancedRef (refs w));
    if adv : bool then skip else
      set_hasAdvancedRef true;;
      clearClipTimer;;
      setClipElapsedMs SDK_CLIP_DURATION_MS;;
      setIsPlaying false;;
      let nextIndex := (index + 1) mod length (sc_tracks sc) in
      inBetweenUrl ← get (λ w, selectedInBetweenSoundUrl (ui w));
      if truthy (sc_deviceId sc) && truthy (sc_accessToken sc) then
        fetch (PlayerPause (sc_deviceId sc) (sc_accessToken sc))
              (DoAdvance sc nextIndex inBetweenUrl)
      else
        doAdvance sc nextIndex inBetweenUrl
  else
    setClipElapsedMs elapsed.

(** The interval callback of the preview branch of [playTrackAtIndex]. *)
Definition previewTick (sc : Scope) (index : nat) (start : Q) : M unit :=
  t ← performance_now;
  let elapsed := (t - start)%Q in
  if Qle_bool PREVIEW_CLIP_DURATION_MS elapsed then advanceToNext sc index
  else setClipElapsedMs elapsed.

(** The interval callback of the SDK branch of [handleResume]. *)
Definition sdkResumeTick (sc : Scope) (index : nat) (startElapsed start : Q)
    : M unit :=
  t ← performance_now;
  let elapsed := (t - start)%Q in
  let totalElapsed := (startElapsed + elapsed)%Q in
  if Qle_bool SDK_CLIP_DURATION_MS totalElapsed then
    adv ← get (λ w, hasAdvancedRef (refs w));
    if adv : bool then skip else
      set_hasAdvancedRef true;;
      clearClipTimer;;
      setClipElapsedMs SDK_CLIP_DURATION_MS;;
      setIsPlaying false;;
      let nextIndex := (index + 1) mod length (sc_tracks sc) in
      if truthy (sc_deviceId sc) && truthy (sc_accessToken sc) then
        fetch (PlayerPause (sc_deviceId sc) (sc_accessToken sc))
              (DoAdvanceResume sc nextIndex)
      else
        doAdvanceResume sc nextIndex
  else
    setClipElapsedMs totalElapsed.

(** The interval callback of the preview branch of [handleResume]. *)
Definition previewResumeTick (sc : Scope) (index : nat)
    (startElapsed start : Q) : M unit :=
  t ← performance_now;
  let elapsed := (t - start)%Q in
  let totalElapsed := (startElapsed + elapsed)%Q in
  if Qle_bool PREVIEW_CLIP_DURATION_MS totalElapsed then advanceToNext sc index
  else setClipElapsedMs totalElapsed.

Definition tick (t : Ticker) : M unit :=
  match t with
  | SdkTick sc index start => sdkTick sc index start
  | PreviewTick sc index start => previewTick sc index start
  | SdkResumeTick sc index startElapsed start =>
      sdkResumeTick sc index startElapsed start
  | PreviewResumeTick sc index startElapsed start =>
      previewResumeTick sc index startElapsed start
  end.

(** Pause current playback (SDK or preview) and any in-between sound; keep
    [clipElapsedMs] for resume.  [deviceId] and [accessToken] are those of
    the render. *)
Definition handlePause (sc : Scope) : M unit :=
  clearClipTimer;;
  releaseInBetween;;
  useSdk ← get (λ w, useSdkRef (refs w));
  if useSdk && truthy (sc_deviceId sc) && truthy (sc_accessToken sc) then
    fetch (PlayerPause (sc_deviceId sc) (sc_accessToken sc)) PauseSettled
  else
    a ← get (λ w, audioRef (refs w));
    match a with
    | Some h => audio_pause h
    | None => skip
    end;;
    setIsPlaying false.

(** After [await fetch(.../pause)] in [handlePause]. *)
Definition pauseSettled (ok : bool) : M unit :=
  (if ok then skip else console_error "Failed to pause");;
  setIsPlaying false.

(** Resume from current clip position (no reset); [currentIndex] and
    [clipElapsedMs] are those of the render in which the user hits Play. *)
Definition handleResume (sc : Scope) : M unit :=
  ci ← get (λ w, currentIndex (ui w));
  match ci with
  | None => skip
  | Some index =>
    match sc_tracks sc !! index with
    | None => skip
    | Some track =>
      if negb (truthy (sc_accessToken sc)) then skip else
      startElapsed ← get (λ w, clipElapsedMs (ui w));
      clearClipTimer;;
      releaseInBetween;;
      setIsPlaying true;;
      set_hasAdvancedRef false;;
      if canUseSdk sc track then
        set_useSdkRef true;;
        setClipDurationMs SDK_CLIP_DURATION_MS;;
        fetch (PlayerPlay (sc_deviceId sc) (sc_accessToken sc) (uri track)
                 (SDK_CLIP_START_MS + startElapsed))
              (SdkResumed sc index startElapsed)
      else
        set_useSdkRef false;;
        setClipDurationMs PREVIEW_CLIP_DURATION_MS;;
        a ← get (λ w, audioRef (refs w));
        match a with
        | Some h =>
            audio_set_currentTime h (startElapsed / (1000 # 1));;
            audio_set_onended h (AdvanceToNextResume sc index);;
            audio_play h PreviewResumeFailed
        | None =>
            audio ← new_Audio (previewUrl track);
            set_audioRef (Some audio);;
            audio_set_volume audio (9 # 10);;
            audio_set_currentTime audio (startElapsed / (1000 # 1));;
            audio_set_onended audio (AdvanceToNextResume sc index);;
            audio_play audio PreviewResumeFailed
        end;;
        start ← performance_now;
        t ← window_setInterval (PreviewResumeTick sc index startElapsed start);
        set_clipTimerRef (Some t)
    end
  end.

(** After [await fetch(.../play)] in [handleResume]. *)
Definition sdkResumed (sc : Scope) (index : nat) (startElapsed : Q)
    (ok : bool) : M unit :=
  if ok then
    start ← performance_now;
    t ← window_setInterval (SdkResumeTick sc index startElapsed start);
    set_clipTimerRef (Some t)
  else
    console_error "Failed to resume SDK playback";;
    setIsPlaying false.

(** The [catch] of [audio.play()], in [playTrackAtIndex] and [handleResume]. *)
Definition previewPlayFailed : M unit :=
  console_error "Failed to play preview";; setIsPlaying false.
Definition previewResumeFailed : M unit :=
  console_error "Failed to resume preview";; setIsPlaying false.

Definition handleNext (sc : Scope) : M unit :=
  ci ← get (λ w, currentIndex (ui w));
  match ci with
  | None => skip
  | Some i =>
      if length (sc_tracks sc) <=? i + 1 then skip
      else playTrackAtIndex sc (i + 1)
  end.

Definition handlePrev (sc : Scope) : M unit :=
  ci ← get (λ w, currentIndex (ui w));
  match ci with
  | None => skip
  | Some i => if i =? 0 then skip else playTrackAtIndex sc (i - 1)
  end.

(** [!!(track.uri || track.previewUrl)] *)
Definition isTrackPlayable (track : Track) : bool :=
  truthy (uri track) || truthy (previewUrl track).

(** Row button: pause if same track and playing; resume if same track and
    paused; else start that track. *)
Definition handleRowPlayPause (sc : Scope) (index : nat) : M unit :=
  match sc_tracks sc !! index with
  | None => skip
  | Some track =>
      if negb (isTrackPlayable track) then skip else
      ci ← get (λ w, currentIndex (ui w));
      playing ← get (λ w, isPlaying (ui w));
      if bool_decide (ci = Some index) && playing then handlePause sc
      else if bool_decide (ci = Some index) && negb playing then handleResume sc
      else playTrackAtIndex sc index
  end.

(** ** App.tsx: the playlist-tracks effect *)

(** The parts of the catalog responses that the effect reads. *)
Record AddedBy := {
  ab_id : option string;
  ab_display_name : option string;
  ab_image : option string          (* [images?.[0]?.url] *)
}.

Record Item := {
  item_type : string;
  item_id : string;
  item_uri : option string;
  item_name : string;
  item_artists : list string;
  item_album_image : option string; (* [album?.images?.[0]?.url] *)
  item_preview_url : option string
}.

Record Entry := {
  entry_item : option Item;         (* [entry.item ?? entry.track] *)
  added_at : option string;
  added_by : option AddedBy
}.

Record Page := {
  page_ok : bool;                   (* [res.ok] *)
  page_items : list Entry;          (* [body.items || []] *)
  page_next : bool                  (* [body.next] is truthy *)
}.

Record ProfileJson := {
  p_display_name : option string;
  p_displayName : option string;
  p_id : option string;
  p_image : option string           (* [images?.[0]?.url] *)
}.

(** How a pending operation ends: a promise is fulfilled or rejected, and
    the two catalog requests are fulfilled with a response ([None] in the
    list of profiles is the [{ error }] object of a failed request). *)
Inductive Outcome :=
  | Resolved
  | Rejected
  | GotPage (body : Page)
  | GotProfiles (responses : list (option ProfileJson)).

(** One iteration of [for (const entry of items)]: the track pushed to
    [all], if any. *)
Definition toTrack (entry : Entry) : option Track :=
  match entry_item entry with
  | None => None
  | Some t =>
      if String.eqb (item_type t) "episode" then None else
      let addedBy := added_by entry in
      Some {| id := item_id t;
              uri := item_uri t;
              name := item_name t;
              artists := item_artists t;
              albumImage := item_album_image t;
              previewUrl := item_preview_url t;
              addedAt := if truthy (added_at entry)
                         then default EmptyString (added_at entry)
                         else EmptyString;
              addedBy :=
                match addedBy ≫= ab_display_name with
                | Some n => n
                | None => default "—" (addedBy ≫= ab_id)
                end;
              addedById := addedBy ≫= ab_id;
              addedByImageUrl := addedBy ≫= ab_image |}
  end.

(** [[...new Set(xs)]]: first occurrences, in order. *)
Fixpoint uniq (seen xs : list string) : list string :=
  match xs with
  | [] => []
  | x :: xs' =>
      if bool_decide (x ∈ seen) then uniq seen xs'
      else x :: uniq (x :: seen) xs'
  end.

(** [all.map((tr) => tr.addedById).filter(Boolean)], deduplicated. *)
Definition userIdsOf (all : list Track) : list string :=
  uniq [] (omap (λ tr, if truthy (addedById tr) then addedById tr else None) all).

(** The [then] after the last [fetchPage()]; the trailing
    [setTracksLoading(false)] is the [finally]. *)
Definition tracksFetched (all : list Track) : M unit :=
  shuffledAll ← shuffle_tracks all;
  setTracks shuffledAll;;
  let userIds := userIdsOf all in
  match userIds with
  | [] => skip
  | _ => fetch (Users userIds) (ProfilesFetched userIds)
  end;;
  setTracksLoading false.

(** The [then] of the request of one page. *)
Definition pageFetched (playlistId accessToken : option string)
    (all : list Track) (offset : nat) (o : Outcome) : M unit :=
  match o with
  | GotPage body =>
      if negb (page_ok body) then
        console_error "[Spotify playlist items] Failed";;
        tracksFetched all
      else
        let all' := all ++ omap toTrack (page_items body) in
        if page_next body then
          let offset' := offset + 100 in
          fetch (PlaylistItems playlistId accessToken offset')
                (PageFetched playlistId accessToken all' offset')
        else tracksFetched all'
  | _ =>
      console_error "[Spotify playlist items] Error";;
      setTracksLoading false
  end.

(** [userIds.forEach((id, i) => { ... map[id] = ... })]; the [console.log]
    of the first profile is left out. *)
Definition profileMap (userIds : list string)
    (responses : list (option ProfileJson)) : gmap string UserProfile :=
  foldl (λ (m : gmap string UserProfile) '(i, uid),
           match mjoin (responses !! i) with
           | Some p =>
               let dn :=
                 match p_display_name p, p_displayName p with
                 | Some n, _ => n
                 | None, Some n => n
                 | None, None => default uid (p_id p)
                 end in
               <[uid := {| displayName := dn; imageUrl := p_image p |}]> m
           | None => <[uid := {| displayName := uid; imageUrl := None |}]> m
           end)
        ∅ (imap (λ i uid, (i, uid)) userIds).

Definition profilesFetched (userIds : list string) (o : Outcome) : M unit :=
  match o with
  | GotProfiles responses => setUserProfiles (profileMap userIds responses)
  | _ => console_error "[Spotify user profiles] Error"
  end.

(** The body of the effect with dependencies [accessToken] and
    [selectedPlaylistId]. *)
Definition playlistEffect : M unit :=
  accessToken ← get (λ w, accessToken (ui w));
  selectedPlaylistId ← get (λ w, selectedPlaylistId (ui w));
  if negb (truthy accessToken) || negb (truthy selectedPlaylistId) then skip
  else
    setTracksLoading true;;
    setTracks [];;
    setCurrentIndex None;;
    setUserProfiles ∅;;
    fetch (PlaylistItems selectedPlaylistId accessToken 0)
          (PageFetched selectedPlaylistId accessToken [] 0).

(** ** Events *)

(** Run a callback that the browser held. *)
Definition run (k : Callback) (o : Outcome) : M unit :=
  let ok := match o with Rejected => false | _ => true end in
  match k with
  | SdkStarted sc index => sdkStarted sc index ok
  | SdkResumed sc index startElapsed => sdkResumed sc index startElapsed ok
  | DoAdvance sc nextIndex url => doAdvance sc nextIndex url
  | DoAdvanceResume sc nextIndex => doAdvanceResume sc nextIndex
  | InBetweenDone sc nextIndex => inBetweenDone sc nextIndex
  | PlayNext sc nextIndex => playTrackAtIndex sc nextIndex
  | AdvanceToNext sc index => advanceToNext sc index
  | AdvanceToNextResume sc index => advanceToNext sc index
  | PreviewPlayFailed => previewPlayFailed
  | PreviewResumeFailed => previewResumeFailed
  | PauseSettled => pauseSettled ok
  | PageFetched playlistId accessToken all offset =>
      pageFetched playlistId accessToken all offset o
  | ProfilesFetched userIds => profilesFetched userIds o
  end.

(** What can happen to the component. *)
Inductive Event :=
  (** [performance.now()] reads [t] from now on *)
  | Clock (t : Q)
  (** a click on track row [index]: [playable && playTrackAtIndex(index)] *)
  | ClickRow (index : nat)
  (** a click on the button of track row [index] *)
  | ClickRowButton (index : nat)
  (** the transport buttons, each with its [disabled] condition *)
  | ClickPlayPause
  | ClickNext
  | ClickPrev
  (** the two dropdowns; [e.target.value || null] *)
  | SelectPlaylist (playlistId : option string)
  | SelectInBetween (url : option string)
  (** the player's [ready] and [not_ready] listeners *)
  | SdkReady (device_id : string)
  | SdkNotReady
  (** interval [h] fires, if it is still set *)
  | Tick (h : positive)
  (** audio element [h], playing, reports that it played to its end *)
  | Ended (h : positive)
  (** the operation started by effect number [n] of the trace (oldest
      first) ends with [o]: a request settles, a timer fires, or the
      browser refuses to play an element *)
  | Settle (n : nat) (o : Outcome).

Definition step (e : Event) : M unit :=
  w ← get (λ w, w);
  let sc := scope_of w in
  match e with
  | Clock t => modify (on_env (env_now t))
  | ClickRow index =>
      match tracks (ui w) !! index with
      | Some track =>
          if isTrackPlayable track then playTrackAtIndex sc index else skip
      | None => skip
      end
  | ClickRowButton index =>
      match tracks (ui w) !! index with
      | Some track =>
          if isTrackPlayable track then handleRowPlayPause sc index else skip
      | None => skip
      end
  | ClickPlayPause =>
      match currentIndex (ui w) with
      | None => skip
      | Some _ => if isPlaying (ui w) then handlePause sc else handleResume sc
      end
  | ClickNext =>
      match currentIndex (ui w) with
      | None => skip
      | Some i =>
          if length (tracks (ui w)) <=? i + 1 then skip else handleNext sc
      end
  | ClickPrev =>
      match currentIndex (ui w) with
      | None => skip
      | Some i => if i =? 0 then skip else handlePrev sc
      end
  | SelectPlaylist playlistId =>
      if bool_decide (playlistId = selectedPlaylistId (ui w)) then skip
      else setSelectedPlaylistId playlistId;; playlistEffect
  | SelectInBetween url => setSelectedInBetweenSoundUrl url
  | SdkReady device_id => setDeviceId (Some device_id);; setPlayerReady true
  | SdkNotReady => setPlayerReady false
  | Tick h =>
      match intervals (env w) !! h with
      | Some t => tick t
      | None => skip
      end
  | Ended h =>
      match audios (env w) !! h with
      | Some el =>
          match paused el, onended el with
          | false, Some k => run k Resolved
          | _, _ => skip
          end
      | None => skip
      end
  | Settle n o =>
      match reverse (trace (env w)) !! n with
      | Some (Fetch _ k) => run k o
      | Some (SetTimeout _ k) => run k Resolved
      | Some (AudioPlay h k) =>
          match o with
          | Rejected => audio_update (el_paused true) h;; run k Rejected
          | _ => skip
          end
      | _ => skip
      end
  end.

(** The world after a list of events, oldest first. *)
Definition after (es : list Event) (w : World) : World :=
  foldl (λ w e, exec (step e) w) w es.

(** ** Vocabulary for the statements *)



Definition tk_scope (t : Ticker) : Scope :=
  match t with
  | SdkTick sc _ _ | PreviewTick sc _ _
  | SdkResumeTick sc _ _ _ | PreviewResumeTick sc _ _ _ => sc
  end.

(** The index of the clip that an interval callback times. *)
Definition tk_index (t : Ticker) : nat :=
  match t with
  | SdkTick _ i _ | PreviewTick _ i _
  | SdkResumeTick _ i _ _ | PreviewResumeTick _ i _ _ => i
  end.

(** The clip duration it compares against. *)
Definition tk_limit (t : Ticker) : Q :=
  match t with
  | SdkTick _ _ _ | SdkResumeTick _ _ _ _ => SDK_CLIP_DURATION_MS
  | PreviewTick _ _ _ | PreviewResumeTick _ _ _ _ => PREVIEW_CLIP_DURATION_MS
  end.

(** The carry-over it adds to the time since it was started. *)
Definition tk_carry (t : Ticker) : option Q :=
  match t with
  | SdkTick _ _ _ | PreviewTick _ _ _ => None
  | SdkResumeTick _ _ startElapsed _
  | PreviewResumeTick _ _ startElapsed _ => Some startElapsed
  end.

(** The elapsed time it computes when [performance.now()] reads [n]. *)
Definition tk_elapsed (t : Ticker) (n : Q) : Q :=
  match t with
  | SdkTick _ _ start | PreviewTick _ _ start => n - start
  | SdkResumeTick _ _ startElapsed start
  | PreviewResumeTick _ _ startElapsed start => startElapsed + (n - start)
  end.

(** Whether it finds the clip at its end when the clock reads [n]. *)
Definition due_at (t : Ticker) (n : Q) : bool :=
  Qle_bool (tk_limit t) (tk_elapsed t n).


(** The index that a callback of the advance chain will play. *)
Definition target (k : Callback) : option nat :=
  match k with
  | DoAdvance _ n _ | DoAdvanceResume _ n | InBetweenDone _ n | PlayNext _ n =>
      Some n
  | _ => None
  end.



(** [audioRef] points to an element that exists. *)
Definition audio_attached (w : World) : Prop :=
  ∀ a, audioRef (refs w) = Some a → is_Some (audios (env w) !! a).

(** The carry-over of the interval that [clipTimerRef] holds. *)
Definition resume_carry (w : World) : option Q :=
  h ← clipTimerRef (refs w);
  t ← intervals (env w) !! h;
  tk_carry t.

(** What [handleResume] has done in [w'] when it resumes clip [index] at
    elapsed time [e]: in full, the remote start at the clip start plus [e],
    whose settlement starts an interval with carry-over [e]; as a preview,
    the element positioned at [e] milliseconds and playing, and an
    interval with carry-over [e]. *)
Definition resumes_at (sc : Scope) (index : nat) (track : Track) (e : Q)
    (w' : World) : Prop :=
  if canUseSdk sc track then
    head (trace (env w'))
      = Some (Fetch (PlayerPlay (sc_deviceId sc) (sc_accessToken sc)
                       (uri track) (SDK_CLIP_START_MS + e))
                    (SdkResumed sc index e)) ∧
    ∀ w1, resume_carry (exec (sdkResumed sc index e true) w1) = Some e
  else
    (∃ a el, audioRef (refs w') = Some a ∧
             audios (env w') !! a = Some el ∧
             currentTime el = (e / (1000 # 1))%Q ∧ paused el = false) ∧
    resume_carry w' = Some e.


(** The effect by which a clip-end hands over to the advance chain: the
    remote pause whose settlement runs [doAdvance], or, where [doAdvance]
    runs at once, the in-between sound or the 300 ms timer that it starts. *)
Definition handoff (e : Effect) : bool :=
  match e with
  | Fetch (PlayerPause _ _) (DoAdvance _ _ _ | DoAdvanceResume _ _) => true
  | SetTimeout _ (PlayNext _ _) => true
  | AudioPlay _ (InBetweenDone _ _) => true
  | _ => false
  end.

(** The index that the callback registered by an effect will play. *)
Definition effect_target (e : Effect) : option nat :=
  match e with
  | Fetch _ k | SetTimeout _ k | AudioPlay _ k => target k
  | _ => None
  end.

Definition handoffs (log : list Effect) : nat :=
  length (List.filter handoff log).

(** A report that a clip may be at its end: an interval callback invoked
    when the clock reads [n] (whether or not the interval is still set),
    or the [onended] handler of a preview element. *)
Inductive Signal :=
  | TickAt (t : Ticker) (n : Q)
  | EndedOf (sc : Scope) (index : nat).

Definition deliver (w : World) (s : Signal) : World :=
  match s with
  | TickAt t n => exec (tick t) (on_env (env_now n) w)
  | EndedOf sc index => exec (advanceToNext sc index) w
  end.

(** Whether the report finds the clip at its end. *)
Definition at_end (s : Signal) : bool :=
  match s with
  | TickAt t n => due_at t n
  | EndedOf _ _ => true
  end.

Definition signals (l : list Signal) (w : World) : World :=
  foldl deliver w l.

(** ** Sample data *)

Definition mkTrack (i : string) (u p : option string) : Track :=
  {| id := i; uri := u; name := i; artists := []; albumImage := None;
     previewUrl := p; addedAt := EmptyString; addedBy := "ann";
     addedById := Some "ann"; addedByImageUrl := None |}.

(** A freshly mounted component: nothing selected, nothing playing. *)
Definition mount (token device : option string) (ready : bool)
    (list : list Track) : World :=
  {| ui := {| accessToken := token; deviceId := device; playerReady := ready;
              selectedPlaylistId := None; tracks := list;
              tracksLoading := false; userProfiles := ∅;
              currentIndex := None; isPlaying := false; clipElapsedMs := 0;
              clipDurationMs := SDK_CLIP_DURATION_MS; songsPlayed := 0;
              selectedInBetweenSoundUrl := None |};
     refs := {| clipTimerRef := None; audioRef := None;
                inBetweenAudioRef := None; useSdkRef := false;
                hasAdvancedRef := false |};
     env := {| intervals := ∅; audios := ∅; nextId := 1%positive; now := 0;
               rnd := Utils.rnd_half; rndCalls := 0; trace := [] |} |}.

(** Three tracks the device can play in full, and three with previews only. *)
Definition fullTracks : list Track :=
  [mkTrack "a" (Some "spotify:track:a") None;
   mkTrack "b" (Some "spotify:track:b") None;
   mkTrack "c" (Some "spotify:track:c") None].

Definition previewTracks : list Track :=
  [mkTrack "p" None (Some "https://p.example/p.mp3");
   mkTrack "q" None (Some "https://p.example/q.mp3");
   mkTrack "r" None (Some "https://p.example/r.mp3")].

(** The first full track started at clock 0 on a ready device, playing. *)
Definition readyWorld : World :=
  mount (Some "tok") (Some "dev") true fullTracks.

Definition playingFull : World :=
  after [ClickRow 0; Settle 1 Resolved] readyWorld.

(** Its interval callback, invoked just before, at, and after the end. *)
Definition ticksAroundEnd : list Signal :=
  [TickAt (SdkTick (scope_of readyWorld) 0 0) (59900 # 1);
   TickAt (SdkTick (scope_of readyWorld) 0 0) (60000 # 1);
   TickAt (SdkTick (scope_of readyWorld) 0 0) (60100 # 1)].

(** The same list with no device: no track can be played in full, and
    none has a preview. *)
Definition noDeviceWorld : World :=
  mount (Some "tok") None false fullTracks.

(** The last track playing, past the end of its clip. *)
Definition lastPlaying : World :=
  after [ClickRow 2; Settle 1 Resolved; Clock (60000 # 1)] readyWorld.

(** The first full track, 20 s into its clip. *)
Definition playingAt20 : World :=
  after [Clock (20000 # 1); Tick 1%positive] playingFull.



(** A preview-only list without a device; the first track is started and
    the browser rejects [audio.play()]. *)
Definition previewWorld : World :=
  mount (Some "tok") None false previewTracks.

Definition previewRejected : World :=
  after [ClickRow 0; Settle 2 Rejected] previewWorld.

(** An in-between sound is selected, the first full clip has ended, the
    remote pause has settled and the in-between sound is playing. *)
Definition inBetweenPlaying : World :=
  after [SelectInBetween (Some "/sounds/ding.mp3"); ClickRow 0;
         Settle 1 Resolved; Clock (60000 # 1); Tick 1%positive;
         Settle 4 Resolved] readyWorld.

(** Two rows are clicked before either remote start has settled. *)
Definition twoStarts : World :=
  after [ClickRow 0; ClickRow 1; Settle 1 Resolved; Settle 3 Resolved]
        readyWorld.

(** The only page of playlist A, and the profile of its contributor. *)
Definition pageA : Page :=
  {| page_ok := true;
     page_items :=
       [{| entry_item :=
             Some {| item_type := "track"; item_id := "a1";
                     item_uri := Some "spotify:track:a1"; item_name := "A one";
                     item_artists := ["artist"]; item_album_image := None;
                     item_preview_url := None |};
           added_at := Some "2024-01-15T12:00:00Z";
           added_by := Some {| ab_id := Some "ann"; ab_display_name := None;
                               ab_image := None |} |}];
     page_next := false |}.

Definition trackA1 : Track :=
  {| id := "a1"; uri := Some "spotify:track:a1"; name := "A one";
     artists := ["artist"]; albumImage := None; previewUrl := None;
     addedAt := "2024-01-15T12:00:00Z"; addedBy := "ann";
     addedById := Some "ann"; addedByImageUrl := None |}.

Definition profileAnn : ProfileJson :=
  {| p_display_name := Some "Ann"; p_displayName := None; p_id := Some "ann";
     p_image := None |}.

(** Playlist A is selected and then, before its tracks arrive, playlist B. *)
Definition reselected : World :=
  after [SelectPlaylist (Some "A"); SelectPlaylist (Some "B")]
        (mount (Some "tok") None false []).

(** ** More of App.tsx, and vocabulary for further statements *)

(** [currentIndex !== null ? tracks[currentIndex] ?? null : null] *)
Definition currentTrack (w : World) : option Track :=
  i ← currentIndex (ui w); tracks (ui w) !! i.

(** [Math.min(1, q)] *)
Definition min1 (q : Q) : Q := if Qle_bool 1 q then 1 else q.

(** [currentTrack ? Math.min(1, clipElapsedMs / clipDurationMs) : 0] *)
Definition clipProgress (w : World) : Q :=
  match currentTrack w with
  | Some _ => min1 (clipElapsedMs (ui w) / clipDurationMs (ui w))
  | None => 0
  end.

(** A request to start playback on the remote device. *)
Definition remote_start (e : Effect) : bool :=
  match e with
  | Fetch (PlayerPlay _ _ _ _) _ => true
  | _ => false
  end.

(** The elapsed time that interval callback [t] leaves in the state when
    it is invoked in [w] with the clock reading [n]. *)
Definition published (t : Ticker) (n : Q) (w : World) : Q :=
  clipElapsedMs (ui (exec (tick t) (on_env (env_now n) w))).

(** Facts about the session that every event keeps. *)

(** [clipTimerRef] holds an interval that is set. *)
Definition timer_live (w : World) : Prop :=
  ∀ h, clipTimerRef (refs w) = Some h → is_Some (intervals (env w) !! h).

(** [inBetweenAudioRef] points to an element that exists. *)
Definition inBetween_attached (w : World) : Prop :=
  ∀ a, inBetweenAudioRef (refs w) = Some a → is_Some (audios (env w) !! a).

(** Once the guard is set the session is shown as not playing. *)
Definition ended_not_playing (w : World) : Prop :=
  hasAdvancedRef (refs w) = true → isPlaying (ui w) = false.

(** The clip duration is one of the two configured durations, and the
    preview duration only with the preview backend. *)
Definition duration_known (w : World) : Prop :=
  clipDurationMs (ui w) = SDK_CLIP_DURATION_MS ∨
  (clipDurationMs (ui w) = PREVIEW_CLIP_DURATION_MS ∧
   useSdkRef (refs w) = false).

Definition session_inv (w : World) : Prop :=
  timer_live w ∧ inBetween_attached w ∧ ended_not_playing w ∧
  duration_known w.

(** [w'] has the trace of [w] and, after it, only effects that [P] rejects. *)
Definition adds_no (P : Effect → bool) (w w' : World) : Prop :=
  ∃ later, trace (env w') = later ++ trace (env w) ∧
           Forall (λ e, P e = false) later.

(** The state after a later render in which the four cells that a scope
    captures hold the values of [sc']. *)
Definition rerendered (sc' : Scope) (w : World) : World :=
  {| ui := {| accessToken := sc_accessToken sc';
              deviceId := sc_deviceId sc';
              playerReady := sc_playerReady sc';
              selectedPlaylistId := selectedPlaylistId (ui w);
              tracks := sc_tracks sc';
              tracksLoading := tracksLoading (ui w);
              userProfiles := userProfiles (ui w);
              currentIndex := currentIndex (ui w);
              isPlaying := isPlaying (ui w);
              clipElapsedMs := clipElapsedMs (ui w);
              clipDurationMs := clipDurationMs (ui w);
              songsPlayed := songsPlayed (ui w);
              selectedInBetweenSoundUrl := selectedInBetweenSoundUrl (ui w) |};
     refs := refs w;
     env := env w |}.

(** The profile that [profileMap] stores for [uid] when the response for
    it is [r] ([None]: missing, or the [{ error }] object). *)
Definition profileOf (uid : string) (r : option ProfileJson) : UserProfile :=
  match r with
  | Some p =>
      {| displayName :=
           match p_display_name p, p_displayName p with
           | Some n, _ => n
           | None, Some n => n
           | None, None => default uid (p_id p)
           end;
         imageUrl := p_image p |}
  | None => {| displayName := uid; imageUrl := None |}
  end.

(** The tracks that the pages contain, in order. *)
Definition collected (pages : list Page) : list Track :=
  concat ((λ p, omap toTrack (page_items p)) <$> pages).

(** The catalog answers the pending request for playlist items with the
    next page of [pages], as long as the latest effect is such a request. *)
Fixpoint feedPages (pages : list Page) (w : World) : World :=
  match pages with
  | [] => w
  | p :: ps =>
      match head (trace (env w)) with
      | Some (Fetch (PlaylistItems _ _ _) k) =>
          feedPages ps (exec (run k (GotPage p)) w)
      | _ => w
      end
  end.

(** The offsets of the requests for playlist items in a trace, oldest
    first. *)
Definition itemOffsets (log : list Effect) : list nat :=
  omap (λ e, match e with
             | Fetch (PlaylistItems _ _ offset) _ => Some offset
             | _ => None
             end) (reverse log).

(** One playlist is selected and the token is present; a page that has a
    successor. *)
Definition selectedWorld : World :=
  exec (setSelectedPlaylistId (Some "A")) (mount (Some "tok") None false []).

Definition pageMore : Page :=
  {| page_ok := true; page_items := page_items pageA; page_next := true |}.

(** The first full clip has just reached its end: the tick has set the
    guard and requested the remote pause, which has not settled yet. *)
Definition clipEnded : World :=
  after [Clock (60000 # 1); Tick 1%positive] playingFull.

(** In that state the user hits Play (the button shows Play, because the
    tick has marked the session as not playing), the remote start of the
    resume settles, and the interval it sets fires once. *)
Definition resumedAfterEnd : World :=
  after [ClickPlayPause; Settle 5 Resolved; Tick 2%positive] clipEnded.

(** The first track is clicked and, before its remote start has settled,
    the user hits Pause; then the remote start settles, then the pause. *)
Definition pausedBeforeStart : World :=
  after [ClickRow 0; ClickPlayPause; Settle 1 Resolved; Settle 2 Resolved]
        readyWorld.

(** The events that run a callback registered earlier: an interval, the
    end of an element, the settlement of a request or timer.  All other
    events are handled with the values of the current render. *)
Definition continuation (e : Event) : bool :=
  match e with
  | Tick _ | Ended _ | Settle _ _ => true
  | _ => false
  end.

(** The player reports not ready after the first clip has reached its end;
    then the pending remote pause settles. *)
Definition notReadyMidChain : World :=
  after [SdkNotReady; Settle 4 Resolved] clipEnded.

End App.
(** * Theorems *)

Import Utils App.

(** Unfold the monadic operations of a handler, then split on what it reads. *)
Ltac mred :=
  cbv [exec mbind M_bind mret M_ret get modify skip emit console_warn
       console_error fetch setTimeout performance_now alloc
       window_setInterval window_clearInterval new_Audio audio_update
       audio_pause audio_play audio_set_currentTime audio_set_volume
       audio_set_onended shuffle_tracks
       setDeviceId setPlayerReady
       setSelectedPlaylistId setSelectedInBetweenSoundUrl setTracks
       setTracksLoading setUserProfiles setCurrentIndex setIsPlaying
       setClipElapsedMs setClipDurationMs setSongsPlayed
       set_clipTimerRef set_audioRef set_inBetweenAudioRef set_useSdkRef
       set_hasAdvancedRef clearClipTimer releaseAudio releaseInBetween
       on_ui on_refs on_env];
  cbn.

Ltac mcase :=
  match goal with
  | |- context [match ?x with _ => _ end] =>
      lazymatch x with
      | context [match _ with _ => _ end] => fail
      | _ => destruct x eqn:?
      end
  end.

Ltac mrun := mred; repeat (mcase; cbn in *; simplify_eq).

(** For the long handlers: name every cell of the world, so that each
    update is computed at once and no intermediate world is kept. *)
Ltac wsplit w :=
  destruct w as [[] [] []];
  cbn [ui refs env accessToken deviceId playerReady selectedPlaylistId
       tracks tracksLoading userProfiles currentIndex isPlaying
       clipElapsedMs clipDurationMs songsPlayed selectedInBetweenSoundUrl
       clipTimerRef audioRef inBetweenAudioRef useSdkRef hasAdvancedRef
       intervals audios nextId now rnd rndCalls trace] in *;
  simplify_eq.

Ltac wred :=
  cbv [exec mbind M_bind mret M_ret get modify skip emit console_warn
       console_error fetch setTimeout performance_now alloc
       window_setInterval window_clearInterval new_Audio audio_update
       audio_pause audio_play audio_set_currentTime audio_set_volume
       audio_set_onended shuffle_tracks
       setDeviceId setPlayerReady
       setSelectedPlaylistId setSelectedInBetweenSoundUrl setTracks
       setTracksLoading setUserProfiles setCurrentIndex setIsPlaying
       setClipElapsedMs setClipDurationMs setSongsPlayed
       set_clipTimerRef set_audioRef set_inBetweenAudioRef set_useSdkRef
       set_hasAdvancedRef clearClipTimer releaseAudio releaseInBetween
       on_ui on_refs on_env
       cells_deviceId cells_playerReady cells_selectedPlaylistId
       cells_tracks cells_tracksLoading cells_userProfiles
       cells_currentIndex cells_isPlaying cells_clipElapsedMs
       cells_clipDurationMs cells_songsPlayed
       cells_selectedInBetweenSoundUrl
       refs_clipTimerRef refs_audioRef refs_inBetweenAudioRef
       refs_useSdkRef refs_hasAdvancedRef
       env_intervals env_audios env_nextId env_now env_rndCalls env_trace
       ui refs env accessToken deviceId playerReady selectedPlaylistId
       tracks tracksLoading userProfiles currentIndex isPlaying
       clipElapsedMs clipDurationMs songsPlayed selectedInBetweenSoundUrl
       clipTimerRef audioRef inBetweenAudioRef useSdkRef hasAdvancedRef
       intervals audios nextId now rnd rndCalls trace fst snd].

Ltac wrun w := wsplit w; wred; repeat (mcase; simplify_eq; wred).

(** ** shuffle *)

Section ShuffleFacts.
Context {T : Type}.
Implicit Types (l arr : list T) (h : gmap positive (list T)).

Lemma random_index_le r i :
  (0 <= r)%Q → (r < 1)%Q → random_index r i ≤ i.
Proof.
  intros H0 H1. unfold random_index.
  set (n := inject_Z (Z.of_nat (i + 1))).
  assert (Hn : (0 < n)%Q).
  { unfold n. rewrite <- (Zlt_Qlt 0). lia. }
  assert (Hlt : (r * n < n)%Q).
  { pose proof (Qmult_lt_compat_r r 1 n Hn H1) as Hm.
    by rewrite Qmult_1_l in Hm. }
  assert (Hfl : (Qfloor (r * n) < Z.of_nat (i + 1))%Z).
  { rewrite Zlt_Qlt. eapply Qle_lt_trans; [apply Qfloor_le | exact Hlt]. }
  lia.
Qed.

(** Exchanging two cells keeps the multiset of elements. *)
Lemma insert_head_perm l j x y :
  l !! j = Some y → y :: <[j := x]> l ≡ₚ x :: l.
Proof.
  revert j. induction l as [|a l IH]; intros [|j] Hj; simplify_eq/=.
  - apply Permutation_swap.
  - rewrite (Permutation_swap a y), (IH _ Hj). apply Permutation_swap.
Qed.

Lemma exchange_perm l i j oi oj :
  l !! i = Some oi → l !! j = Some oj →
  <[j := oi]> (<[i := oj]> l) ≡ₚ l.
Proof.
  revert i j. induction l as [|a l IH]; intros [|i] [|j] Hi Hj; simplify_eq/=.
  - done.
  - by apply insert_head_perm.
  - by apply insert_head_perm.
  - f_equiv. by apply IH.
Qed.

(** One iteration: with both indices inside the array the exchange is
    defined, writes only the array [out], and permutes its contents. *)
Lemma swap_in_place_spec out i j h arr :
  h !! out = Some arr → i < length arr → j < length arr →
  ∃ arr', swap_in_place out i j h = Some (<[out := arr']> h) ∧
          arr' ≡ₚ arr ∧ length arr' = length arr.
Proof.
  intros Hout Hi Hj.
  destruct (lookup_lt_is_Some_2 arr i Hi) as [oi Hoi].
  destruct (lookup_lt_is_Some_2 arr j Hj) as [oj Hoj].
  exists (<[j := oi]> (<[i := oj]> arr)). split_and!.
  - unfold swap_in_place. rewrite Hout. simpl. rewrite Hoj. simpl.
    by rewrite Hoi.
  - by apply exchange_perm.
  - by rewrite !length_insert.
Qed.

(** The loop, started at any index inside the array, terminates normally
    and leaves every array but [out] as it was. *)
Lemma shuffle_loop_spec rnd i : ∀ calls out h arr,
  random_source rnd →
  h !! out = Some arr → i < length arr ∨ (i = 0 ∧ arr = []) →
  ∃ res, shuffle_loop rnd calls i out h = Some (<[out := res]> h) ∧
         res ≡ₚ arr ∧ length res = length arr ∧ (i = 0 → res = arr).
Proof.
  induction i as [|i IH]; intros calls out h arr Hrnd Hout Hi.
  - exists arr. simpl. by rewrite insert_id.
  - destruct Hi as [Hi | [? _]]; [| lia].
    assert (Hj : random_index (rnd calls) (S i) < length arr).
    { destruct (Hrnd calls) as [H0 H1].
      pose proof (random_index_le _ (S i) H0 H1). lia. }
    destruct (swap_in_place_spec out (S i) _ h arr Hout Hi Hj)
      as (arr' & Hswap & Hperm & Hlen).
    destruct (IH (S calls) out (<[out := arr']> h) arr' Hrnd) as
      (res & Hloop & Hperm' & Hlen' & _).
    { by rewrite lookup_insert_eq. }
    { left. lia. }
    exists res. split_and!.
    + cbn [shuffle_loop]. rewrite Hswap. simpl. rewrite Hloop.
      by rewrite insert_insert_eq.
    + by rewrite Hperm'.
    + lia.
    + lia.
Qed.

(** What [shuffle] computes: the copy is stored under a reference that
    was not in use, and the loop permutes the copy. *)
Lemma shuffle_result rnd array h arr :
  random_source rnd → h !! array = Some arr →
  ∃ res, shuffle rnd array h
           = Some (fresh (dom h), <[fresh (dom h) := res]> h) ∧
         res ≡ₚ arr ∧ length res = length arr ∧
         (length arr ≤ 1 → res = arr).
Proof.
  intros Hrnd Harr. set (out := fresh (dom h)).
  destruct (shuffle_loop_spec rnd (length arr - 1) 0 out (<[out := arr]> h) arr)
    as (res & Hloop & Hperm & Hlen & Hsmall); [done | | |].
  { by rewrite lookup_insert_eq. }
  { destruct arr; [right | left]; simpl; [done | lia]. }
  exists res. split_and!; try done.
  - unfold shuffle. rewrite Harr. simpl. fold out. rewrite Hloop. simpl.
    by rewrite insert_insert_eq.
  - intros Hle. apply Hsmall. lia.
Qed.

(** C10: for every input array, [shuffle] returns a new array (a reference
    that did not exist before, so not the input's) whose contents are a
    permutation of the input's, of the same length; the input array and
    every other array are left as they were; an empty or single-element
    input comes back with the same contents. *)
Theorem shuffle_new_permutation rnd array h arr :
  random_source rnd → h !! array = Some arr →
  ∃ out h' res,
    shuffle rnd array h = Some (out, h') ∧
    out ≠ array ∧ h !! out = None ∧
    h' !! out = Some res ∧
    res ≡ₚ arr ∧ length res = length arr ∧
    h' !! array = Some arr ∧
    (∀ a, a ≠ out → h' !! a = h !! a) ∧
    (length arr ≤ 1 → res = arr).
Proof.
  intros Hrnd Harr.
  destruct (shuffle_result rnd array h arr Hrnd Harr)
    as (res & Hsh & Hperm & Hlen & Hsmall).
  set (out := fresh (dom h)) in *.
  assert (Hfresh : h !! out = None).
  { apply not_elem_of_dom, is_fresh. }
  assert (Hne : out ≠ array) by congruence.
  exists out, (<[out := res]> h), res. split_and!; try done.
  - by rewrite lookup_insert_eq.
  - by rewrite lookup_insert_ne.
  - intros a Ha. by rewrite lookup_insert_ne.
Qed.

(** The contents handed to a caller that keeps only the result. *)
Lemma shuffled_perm rnd l : random_source rnd → shuffled rnd l ≡ₚ l.
Proof.
  intros Hrnd. unfold shuffled.
  destruct (shuffle_result rnd 1%positive {[ 1%positive := l ]} l Hrnd)
    as (res & -> & Hperm & _); [by rewrite lookup_singleton_eq |].
  by rewrite lookup_insert_eq.
Qed.

End ShuffleFacts.

Lemma rnd_half_ok : random_source rnd_half.
Proof. intros k. split; vm_compute; [discriminate | reflexivity]. Qed.

Example shuffle_three :
  shuffled rnd_half [10; 20; 30] = [10; 30; 20].
Proof. vm_compute. reflexivity. Qed.

Lemma shuffle_new_permutation_witness :
  ∃ out h' res,
    shuffle rnd_half 1%positive {[ 1%positive := [10; 20; 30] ]} = Some (out, h') ∧
    out ≠ 1%positive ∧
    ({[ 1%positive := [10; 20; 30] ]} : gmap positive (list nat)) !! out = None ∧
    h' !! out = Some res ∧
    res ≡ₚ [10; 20; 30] ∧ length res = 3 ∧
    h' !! 1%positive = Some [10; 20; 30] ∧
    (∀ a, a ≠ out → h' !! a = ({[ 1%positive := [10; 20; 30] ]} : gmap positive (list nat)) !! a) ∧
    (3 ≤ 1 → res = [10; 20; 30]).
Proof.
  apply (shuffle_new_permutation rnd_half 1%positive
           {[ 1%positive := [10; 20; 30] ]} [10; 20; 30]).
  - intros k. split; vm_compute; [discriminate | reflexivity].
  - reflexivity.
Defined.


(** ** Two runs of the model *)

(** Three tracks playable in full, a ready device, no in-between sound:
    the first track is started, its clip ends, the remote pause settles,
    the 300 ms timer fires.  The second track is current, the elapsed time
    is back at 0, and the one remote pause precedes the new remote start. *)
Example run_three_full :
  let w := after [ClickRow 0; Settle 1 Resolved; Clock (60000 # 1);
                  Tick 1%positive; Settle 4 Resolved; Settle 6 Resolved]
                 readyWorld in
  currentIndex (ui w) = Some 1 ∧
  clipElapsedMs (ui w) = 0%Q ∧
  songsPlayed (ui w) = 2 ∧
  reverse (trace (env w))
    = [ShowCurrentIndex (Some 0);
       Fetch (PlayerPlay (Some "dev") (Some "tok") (Some "spotify:track:a")
                SDK_CLIP_START_MS)
             (SdkStarted (scope_of readyWorld) 0);
       SetInterval 1%positive (SdkTick (scope_of readyWorld) 0 0);
       ClearInterval 1%positive;
       Fetch (PlayerPause (Some "dev") (Some "tok"))
             (DoAdvance (scope_of readyWorld) 1 None);
       ShowCurrentIndex (Some 1);
       SetTimeout 300 (PlayNext (scope_of readyWorld) 1);
       ShowCurrentIndex (Some 1);
       Fetch (PlayerPlay (Some "dev") (Some "tok") (Some "spotify:track:b")
                SDK_CLIP_START_MS)
             (SdkStarted (scope_of readyWorld) 1)].
Proof. vm_compute. repeat split; reflexivity. Qed.

(** A preview-only track: the preview backend is chosen and the clip
    lasts the preview duration. *)
Example run_preview_only :
  let w := after [ClickRow 0] previewWorld in
  useSdkRef (refs w) = false ∧
  clipDurationMs (ui w) = PREVIEW_CLIP_DURATION_MS ∧
  audioRef (refs w) = Some 1%positive ∧
  clipTimerRef (refs w) = Some 2%positive.
Proof. vm_compute. repeat split; reflexivity. Qed.

(** ** The interval callbacks *)

Section Ticks.
Implicit Types (t : Ticker) (w : World) (n : Q).

(** Before the end of the clip a tick only publishes the elapsed time. *)
Lemma tick_early t w :
  due_at t (now (env w)) = false →
  exec (tick t) w
    = on_ui (cells_clipElapsedMs (tk_elapsed t (now (env w)))) w.
Proof.
  unfold due_at. intros Hdue.
  destruct t; cbn in Hdue; cbv [tick sdkTick previewTick sdkResumeTick previewResumeTick];
    mred; rewrite Hdue; reflexivity.
Qed.

(** With the guard set, a tick past the end of the clip does nothing. *)
Lemma tick_guarded t w :
  hasAdvancedRef (refs w) = true → due_at t (now (env w)) = true →
  exec (tick t) w = w.
Proof.
  unfold due_at. intros Hadv Hdue.
  destruct t; cbn in Hdue;
    cbv [tick sdkTick previewTick sdkResumeTick previewResumeTick advanceToNext];
    mred; rewrite Hdue, ?Hadv; cbn; rewrite ?Hadv; reflexivity.
Qed.

(** With the guard unset, a tick past the end of the clip sets the guard,
    cancels the timer, marks the session not playing and hands over to the
    advance chain once. *)
Lemma tick_fires t w :
  hasAdvancedRef (refs w) = false → due_at t (now (env w)) = true →
  hasAdvancedRef (refs (exec (tick t) w)) = true ∧
  clipTimerRef (refs (exec (tick t) w)) = None ∧
  isPlaying (ui (exec (tick t) w)) = false ∧
  clipElapsedMs (ui (exec (tick t) w)) = tk_limit t ∧
  handoffs (trace (env (exec (tick t) w))) = S (handoffs (trace (env w))).
Proof.
  unfold due_at. intros Hadv Hdue.
  destruct t; cbn in Hdue;
    cbv [tick sdkTick previewTick sdkResumeTick previewResumeTick
         advanceToNext doAdvanceResume doAdvance];
    mred; rewrite Hdue; cbn; rewrite ?Hadv; cbn;
    mrun; rewrite ?Hadv; auto.
Qed.

(** The same for the [onended] handler of a preview element. *)
Lemma advanceToNext_guarded sc index w :
  hasAdvancedRef (refs w) = true → exec (advanceToNext sc index) w = w.
Proof. intros Hadv. unfold advanceToNext. mred. by rewrite Hadv. Qed.

Lemma advanceToNext_fires sc index w :
  hasAdvancedRef (refs w) = false →
  hasAdvancedRef (refs (exec (advanceToNext sc index) w)) = true ∧
  handoffs (trace (env (exec (advanceToNext sc index) w)))
    = S (handoffs (trace (env w))).
Proof.
  intros Hadv. cbv [advanceToNext doAdvance].
  mred; rewrite ?Hadv; cbn; mrun; rewrite ?Hadv; auto.
Qed.

Lemma deliver_guarded w s :
  hasAdvancedRef (refs w) = true →
  hasAdvancedRef (refs (deliver w s)) = true ∧
  trace (env (deliver w s)) = trace (env w).
Proof.
  intros Hadv. destruct s as [t n | sc index]; cbn [deliver].
  - set (w0 := on_env (env_now n) w).
    destruct (due_at t (now (env w0))) eqn:Hdue.
    + rewrite tick_guarded; done.
    + rewrite tick_early; done.
  - by rewrite advanceToNext_guarded.
Qed.

Lemma signals_guarded l : ∀ w,
  hasAdvancedRef (refs w) = true →
  hasAdvancedRef (refs (signals l w)) = true ∧
  trace (env (signals l w)) = trace (env w).
Proof.
  induction l as [|s l IH]; intros w Hadv; [done |].
  destruct (deliver_guarded w s Hadv) as [Hadv' Htr].
  destruct (IH _ Hadv') as [Hg Ht].
  change (signals (s :: l) w) with (signals l (deliver w s)).
  split; [done | by rewrite Ht].
Qed.

(** Between two resets of the one-shot guard, however many times and
    by whichever callbacks the end of the clip is reported (a duplicate
    tick, the tick of an interval that a later start left behind, the
    [onended] of the preview element), the advance chain is entered
    exactly once if some report finds the clip at its end, and not at all
    otherwise.  No handler runs between the reports. *)
Lemma advance_fires_once l w :
  hasAdvancedRef (refs w) = false →
  handoffs (trace (env (signals l w)))
    = handoffs (trace (env w)) + (if existsb at_end l then 1 else 0) ∧
  hasAdvancedRef (refs (signals l w)) = existsb at_end l.
Proof.
  revert w. induction l as [|s l IH]; intros w Hadv.
  - cbn. split; [lia | done].
  - change (signals (s :: l) w) with (signals l (deliver w s)).
    cbn [existsb].
    assert (Hfire : at_end s = true →
              hasAdvancedRef (refs (deliver w s)) = true ∧
              handoffs (trace (env (deliver w s)))
                = S (handoffs (trace (env w)))).
    { destruct s as [t n | sc index]; cbn [at_end deliver]; intros Hdue.
      - destruct (tick_fires t (on_env (env_now n) w)) as (? & _ & _ & _ & ?);
          done.
      - by apply advanceToNext_fires. }
    destruct (at_end s) eqn:Hend; cbn [orb].
    + destruct (Hfire eq_refl) as [Hadv' Hone].
      destruct (signals_guarded l _ Hadv') as [-> ->].
      rewrite Hone. split; [lia | done].
    + destruct s as [t n | sc index]; [| done]. cbn [deliver at_end] in *.
      rewrite tick_early by done.
      apply (IH (on_ui _ (on_env (env_now n) w))). done.
Qed.

End Ticks.

Lemma advance_fires_once_witness :
  handoffs (trace (env (signals ticksAroundEnd playingFull)))
    = handoffs (trace (env playingFull)) + 1 ∧
  hasAdvancedRef (refs (signals ticksAroundEnd playingFull)) = true.
Proof.
  apply (advance_fires_once ticksAroundEnd playingFull).
  vm_compute. reflexivity.
Defined.

(** C1, the failing run: the first full clip reaches its end; the tick sets
    the guard, marks the session as not playing and requests the remote
    pause (one hand-off).  The transport button now shows Play; the user
    hits it before the chain has started the next track.  [handleResume]
    re-arms the guard and resumes at the retained 60 s, so the first tick
    of the resumed interval finds the same clip at its end and hands off
    again: two hand-offs, both to index 1, for one clip played.  When both
    chains have run, track 1 has been started twice. *)
Theorem resume_after_end_advances_twice :
  currentIndex (ui clipEnded) = Some 0 ∧ isPlaying (ui clipEnded) = false ∧
  clipElapsedMs (ui clipEnded) = SDK_CLIP_DURATION_MS ∧
  hasAdvancedRef (refs clipEnded) = true ∧
  songsPlayed (ui clipEnded) = 1 ∧
  handoffs (trace (env clipEnded)) = 1 ∧
  hasAdvancedRef (refs (after [ClickPlayPause] clipEnded)) = false ∧
  currentIndex (ui resumedAfterEnd) = Some 0 ∧
  songsPlayed (ui resumedAfterEnd) = 1 ∧
  handoffs (trace (env resumedAfterEnd)) = 2 ∧
  effect_target <$> List.filter handoff (trace (env resumedAfterEnd))
    = [Some 1; Some 1] ∧
  let w := after [Settle 4 Resolved; Settle 8 Resolved;
                  Settle 10 Resolved; Settle 12 Resolved] resumedAfterEnd in
  currentIndex (ui w) = Some 1 ∧ songsPlayed (ui w) = 3 ∧
  List.filter remote_start (take 4 (trace (env w)))
    = [Fetch (PlayerPlay (Some "dev") (Some "tok") (Some "spotify:track:b")
                SDK_CLIP_START_MS) (SdkStarted (scope_of readyWorld) 1);
       Fetch (PlayerPlay (Some "dev") (Some "tok") (Some "spotify:track:b")
                SDK_CLIP_START_MS) (SdkStarted (scope_of readyWorld) 1)].
Proof. vm_compute. repeat split; reflexivity. Qed.

(** ** playTrackAtIndex *)

Section PlayAt.
Implicit Types (sc : Scope) (w : World) (track : Track).


End PlayAt.


(** ** Which track comes next *)

Section Navigation.
Implicit Types (sc : Scope) (w : World) (t : Ticker).

(** The callback that a clip-end registers plays the index after the
    clip's own, modulo the length of the list. *)
Lemma tick_fires_target t w :
  hasAdvancedRef (refs w) = false → due_at t (now (env w)) = true →
  ∃ e, head (trace (env (exec (tick t) w))) = Some e ∧
       effect_target e
         = Some ((tk_index t + 1) mod length (sc_tracks (tk_scope t))).
Proof.
  unfold due_at. intros Hadv Hdue.
  destruct t; cbn in Hdue;
    cbv [tick sdkTick previewTick sdkResumeTick previewResumeTick
         advanceToNext doAdvanceResume doAdvance];
    mred; rewrite Hdue; cbn; rewrite ?Hadv; cbn;
    mrun; rewrite ?Hadv; eauto.
Qed.

Lemma handleNext_spec sc w i :
  currentIndex (ui w) = Some i →
  exec (handleNext sc) w
    = if length (sc_tracks sc) <=? i + 1 then w
      else exec (playTrackAtIndex sc (i + 1)) w.
Proof.
  intros Hi. unfold handleNext. mred. rewrite Hi.
  by destruct (length (sc_tracks sc) <=? i + 1).
Qed.

Lemma handlePrev_spec sc w i :
  currentIndex (ui w) = Some i →
  exec (handlePrev sc) w
    = if i =? 0 then w else exec (playTrackAtIndex sc (i - 1)) w.
Proof.
  intros Hi. unfold handlePrev. mred. rewrite Hi. by destruct (i =? 0).
Qed.

(** C7: the callback that the end of clip [tk_index t] registers plays
    index [(tk_index t + 1) mod length], which is 0 after the last index;
    [handleNext] at the last index and [handlePrev] at index 0 change
    nothing, and elsewhere they are [playTrackAtIndex] on the index after
    and before the current one. *)
Theorem auto_wraps_manual_clamps t sc w i :
  (hasAdvancedRef (refs w) = false → due_at t (now (env w)) = true →
   ∃ e, head (trace (env (exec (tick t) w))) = Some e ∧
        effect_target e
          = Some ((tk_index t + 1) mod length (sc_tracks (tk_scope t))) ∧
        (tk_index t + 1 = length (sc_tracks (tk_scope t)) →
         effect_target e = Some 0)) ∧
  (currentIndex (ui w) = Some i →
   (i + 1 = length (sc_tracks sc) → exec (handleNext sc) w = w) ∧
   (i + 1 < length (sc_tracks sc) →
    exec (handleNext sc) w = exec (playTrackAtIndex sc (i + 1)) w) ∧
   (i = 0 → exec (handlePrev sc) w = w) ∧
   (0 < i → exec (handlePrev sc) w = exec (playTrackAtIndex sc (i - 1)) w)).
Proof.
  split.
  - intros Hadv Hdue.
    destruct (tick_fires_target t w Hadv Hdue) as (e & He & Ht).
    exists e. split_and!; [done | done |].
    intros Hlast. rewrite Ht, Hlast.
    destruct (length (sc_tracks (tk_scope t))) eqn:Hlen; [lia |].
    by rewrite Nat.Div0.mod_same.
  - intros Hi. rewrite (handleNext_spec sc w i Hi), (handlePrev_spec sc w i Hi).
    split_and!; intros H.
    + by rewrite (proj2 (Nat.leb_le _ _)) by lia.
    + by rewrite (proj2 (Nat.leb_gt _ _)) by lia.
    + by rewrite H.
    + by rewrite (proj2 (Nat.eqb_neq _ _)) by lia.
Qed.

End Navigation.

Lemma auto_wraps_manual_clamps_witness :
  (∃ e, head (trace (env (exec (tick (SdkTick (scope_of readyWorld) 2 0))
                            lastPlaying))) = Some e ∧
        effect_target e = Some 0) ∧
  exec (handleNext (scope_of readyWorld)) lastPlaying = lastPlaying ∧
  exec (handlePrev (scope_of readyWorld)) playingFull = playingFull.
Proof.
  split_and!.
  - destruct (auto_wraps_manual_clamps (SdkTick (scope_of readyWorld) 2 0)
                (scope_of readyWorld) lastPlaying 2) as [H _].
    destruct H as (e & He & _ & H0); [reflexivity | reflexivity |].
    exists e. split; [exact He | apply H0; reflexivity].
  - destruct (auto_wraps_manual_clamps (SdkTick (scope_of readyWorld) 2 0)
                (scope_of readyWorld) lastPlaying 2) as [_ H].
    destruct H as (H & _); [reflexivity |]. apply H. reflexivity.
  - destruct (auto_wraps_manual_clamps (SdkTick (scope_of readyWorld) 0 0)
                (scope_of readyWorld) playingFull 0) as [_ H].
    destruct H as (_ & _ & H & _); [reflexivity |]. apply H. reflexivity.
Defined.

(** ** The advance chain *)

Section Chain.
Implicit Types (sc : Scope) (w : World) (t : Ticker) (k : Callback).



(** [.then(doAdvance).catch(() => doAdvance())]: the same either way. *)
Lemma doAdvance_either sc n url o w :
  exec (run (DoAdvance sc n url) o) w
    = exec (run (DoAdvance sc n url) Resolved) w ∧
  exec (run (DoAdvanceResume sc n) o) w
    = exec (run (DoAdvanceResume sc n) Resolved) w.
Proof. by destruct o. Qed.





(** The remote start and the interval callback of a clip played in full
    carry the scope and the index that [playTrackAtIndex] was called with. *)
Lemma playAt_full_registers sc index track w :
  sc_tracks sc !! index = Some track →
  truthy (sc_accessToken sc) = true →
  canUseSdk sc track = true →
  head (trace (env (exec (playTrackAtIndex sc index) w)))
    = Some (Fetch (PlayerPlay (sc_deviceId sc) (sc_accessToken sc)
                     (uri track) SDK_CLIP_START_MS)
                  (SdkStarted sc index)) ∧
  currentIndex (ui (exec (playTrackAtIndex sc index) w)) = Some index ∧
  ∀ w1, head (trace (env (exec (run (SdkStarted sc index) Resolved) w1)))
        = Some (SetInterval (nextId (env w1))
                  (SdkTick sc index (now (env w1)))).
Proof.
  intros Ht Htok Hsdk. split_and!.
  - unfold playTrackAtIndex. rewrite Ht, Htok. cbn [negb]. rewrite Hsdk.
    cbn [negb andb]. by wrun w.
  - unfold playTrackAtIndex. rewrite Ht, Htok. cbn [negb]. rewrite Hsdk.
    cbn [negb andb]. by wrun w.
  - intros w1. cbn [run]. unfold sdkStarted. by wrun w1.
Qed.


End Chain.



(** ** Pause and resume *)

Section Resume.
Implicit Types (sc : Scope) (w : World) (track : Track).

Lemma handlePause_keeps sc w :
  ui (exec (handlePause sc) w) = ui w ∨
  ui (exec (handlePause sc) w) = cells_isPlaying false (ui w).
Proof. unfold handlePause. wrun w; auto. Qed.

Lemma handlePause_attached sc w :
  audio_attached w → audio_attached (exec (handlePause sc) w).
Proof.
  unfold audio_attached, handlePause. intros Hatt a.
  wrun w; intros ?; simplify_eq;
    repeat (rewrite lookup_alter; case_decide; simplify_eq;
            rewrite ?fmap_is_Some);
    by apply Hatt.
Qed.

Lemma pauseSettled_keeps ok w :
  clipElapsedMs (ui (exec (pauseSettled ok) w)) = clipElapsedMs (ui w) ∧
  currentIndex (ui (exec (pauseSettled ok) w)) = currentIndex (ui w) ∧
  refs (exec (pauseSettled ok) w) = refs w ∧
  audios (env (exec (pauseSettled ok) w)) = audios (env w) ∧
  isPlaying (ui (exec (pauseSettled ok) w)) = false.
Proof. unfold pauseSettled. destruct ok; by mred. Qed.

(** The interval that [sdkResumed] starts carries [e] over. *)
Lemma sdkResumed_carry sc index e w :
  resume_carry (exec (sdkResumed sc index e true) w) = Some e.
Proof.
  unfold sdkResumed, resume_carry. wrun w. cbn. by rewrite lookup_insert_eq.
Qed.

(** [handleResume] restarts from the elapsed time of the state it is
    called in, whichever backend it then chooses. *)
Lemma handleResume_resumes sc w index track :
  currentIndex (ui w) = Some index →
  sc_tracks sc !! index = Some track →
  truthy (sc_accessToken sc) = true →
  audio_attached w →
  resumes_at sc index track (clipElapsedMs (ui w)) (exec (handleResume sc) w) ∧
  clipElapsedMs (ui (exec (handleResume sc) w)) = clipElapsedMs (ui w) ∧
  useSdkRef (refs (exec (handleResume sc) w)) = canUseSdk sc track.
Proof.
  unfold resumes_at, audio_attached, handleResume, resume_carry.
  intros Hi Ht Htok Hatt.
  destruct (canUseSdk sc track) eqn:Hsdk.
  - split_and!; [| apply sdkResumed_carry | |];
      wsplit w; wred; rewrite Ht, Htok; cbn [negb]; rewrite Hsdk;
      repeat (mcase; simplify_eq; wred); done.
  - wsplit w; wred; rewrite Ht, Htok; cbn [negb]; rewrite Hsdk.
    repeat (mcase; simplify_eq; wred);
      (split_and!; [| cbn; by rewrite lookup_insert_eq | done | done]);
      try (destruct (Hatt _ eq_refl) as [el0 Hel0]);
      eexists _, _; (split; [reflexivity |]);
      repeat (rewrite lookup_alter; case_decide; simplify_eq);
      rewrite ?lookup_insert_eq, ?Hel0; cbn;
      (split; [reflexivity |]); done.
Qed.

(** [handlePause], and the settlement of its remote pause, leave the
    elapsed time as it was, and a [handleResume] right after either
    restarts from that value: in full at the clip start offset plus the
    value, as a preview with the element positioned at the value, and
    with an interval that carries the value over.  What happens to the
    elapsed time between the pause and the resume is not part of this
    lemma. *)
Lemma pause_resume_continues sc w index track ok :
  currentIndex (ui w) = Some index →
  sc_tracks sc !! index = Some track →
  truthy (sc_accessToken sc) = true →
  audio_attached w →
  let e := clipElapsedMs (ui w) in
  let wp := exec (handlePause sc) w in
  let wq := exec (pauseSettled ok) wp in
  clipElapsedMs (ui wp) = e ∧ clipElapsedMs (ui wq) = e ∧
  resumes_at sc index track e (exec (handleResume sc) wp) ∧
  resumes_at sc index track e (exec (handleResume sc) wq) ∧
  (∀ t w1, tk_carry t = Some e → due_at t (now (env w1)) = false →
     ∃ start, clipElapsedMs (ui (exec (tick t) w1))
              = (e + (now (env w1) - start))%Q).
Proof.
  intros Hi Ht Htok Hatt e wp wq.
  assert (Hp : clipElapsedMs (ui wp) = e ∧ currentIndex (ui wp) = Some index).
  { subst wp. destruct (handlePause_keeps sc w) as [-> | ->]; done. }
  destruct Hp as [Hpe Hpi].
  pose proof (handlePause_attached sc w Hatt) as Hpatt. fold wp in Hpatt.
  destruct (pauseSettled_keeps ok wp) as (Hqe & Hqi & Hqr & Hqa & _).
  fold wq in Hqe, Hqi, Hqr, Hqa.
  assert (Hqatt : audio_attached wq).
  { intros a. rewrite Hqr, Hqa. apply Hpatt. }
  split_and!.
  - done.
  - congruence.
  - rewrite <- Hpe. by apply handleResume_resumes.
  - replace e with (clipElapsedMs (ui wq)) by congruence.
    apply handleResume_resumes; [congruence | done ..].
  - intros t w1 Hc Hdue. rewrite (tick_early t w1 Hdue).
    destruct t; simplify_eq/=; eauto.
Qed.


End Resume.

Lemma pause_resume_continues_witness :
  clipElapsedMs (ui (exec (handlePause (scope_of readyWorld)) playingAt20))
    = 20000 # 1 ∧
  resumes_at (scope_of readyWorld) 0
    (mkTrack "a" (Some "spotify:track:a") None) (20000 # 1)
    (exec (handleResume (scope_of readyWorld))
       (exec (pauseSettled true)
          (exec (handlePause (scope_of readyWorld)) playingAt20))).
Proof.
  destruct (pause_resume_continues (scope_of readyWorld) playingAt20 0
              (mkTrack "a" (Some "spotify:track:a") None) true)
    as (H1 & _ & _ & H2 & _).
  - reflexivity.
  - reflexivity.
  - reflexivity.
  - intros a Ha. vm_compute in Ha. discriminate.
  - split; [exact H1 | exact H2].
Defined.

(** The interval of a resume is started at the clock reading of the
    moment it is set, with the retained elapsed time as carry-over: a tick
    [d] ms later computes the retained time plus [d]. *)
Lemma resume_interval_starts_now sc index e w :
  let w' := exec (sdkResumed sc index e true) w in
  ∃ h, clipTimerRef (refs w') = Some h ∧
       intervals (env w') !! h
         = Some (SdkResumeTick sc index e (now (env w))) ∧
       ∀ d, (tk_elapsed (SdkResumeTick sc index e (now (env w)))
               (now (env w) + d) == e + d)%Q.
Proof.
  unfold sdkResumed. wsplit w. wred. eexists. split_and!; [done | |].
  - by rewrite lookup_insert_eq.
  - intros d. cbn [tk_elapsed]. ring.
Qed.

Lemma resume_preview_interval_starts_now sc index track w :
  currentIndex (ui w) = Some index →
  sc_tracks sc !! index = Some track →
  truthy (sc_accessToken sc) = true →
  canUseSdk sc track = false →
  let w' := exec (handleResume sc) w in
  ∃ h, clipTimerRef (refs w') = Some h ∧
       intervals (env w') !! h
         = Some (PreviewResumeTick sc index (clipElapsedMs (ui w))
                   (now (env w))).
Proof.
  intros Hi Ht Htok Hsdk. unfold handleResume.
  wsplit w. wred. rewrite Ht, Htok, Hsdk. cbn [negb].
  repeat (mcase; simplify_eq; wred); eexists; (split; [done |]);
    by rewrite lookup_insert_eq.
Qed.

(** C6, the failing run: the first track is clicked and the user hits
    Pause before the remote start has settled.  [handlePause] finds no
    timer to cancel; when the remote start settles, its continuation sets
    the interval all the same, and when the pause settles the session is
    shown as paused at 0 s with the interval running.  Its ticks raise
    the elapsed time while paused: at a clock reading of 20 s a resume
    restarts the track 20 s further than where it was paused, and with no
    resume the tick at 60 s enters the advance chain of a paused clip. *)
Theorem pause_before_start_runs_clock :
  isPlaying (ui pausedBeforeStart) = false ∧
  clipElapsedMs (ui pausedBeforeStart) = 0%Q ∧
  clipTimerRef (refs pausedBeforeStart) = Some 1%positive ∧
  intervals (env pausedBeforeStart) !! 1%positive
    = Some (SdkTick (scope_of readyWorld) 0 0) ∧
  let w1 := after [Clock (20000 # 1); Tick 1%positive] pausedBeforeStart in
  isPlaying (ui w1) = false ∧
  clipElapsedMs (ui w1) = (20000 # 1)%Q ∧
  head (trace (env (after [ClickPlayPause] w1)))
    = Some (Fetch (PlayerPlay (Some "dev") (Some "tok")
                     (Some "spotify:track:a") (65000 # 1))
                  (SdkResumed (scope_of readyWorld) 0 (20000 # 1))) ∧
  let w2 := after [Clock (60000 # 1); Tick 1%positive] pausedBeforeStart in
  isPlaying (ui w2) = false ∧ handoffs (trace (env w2)) = 1 ∧
  effect_target <$> head (trace (env w2)) = Some (Some 1).
Proof. vm_compute. repeat split; reflexivity. Qed.



(** ** Where the code departs from the specification *)

Section Failures.
Implicit Types (sc : Scope) (w : World).

(** A rejected remote start: logged, not playing, and no interval, no
    request and no change of index follow. *)
Lemma sdkStarted_failure sc index w :
  ui (exec (sdkStarted sc index false) w) = cells_isPlaying false (ui w) ∧
  refs (exec (sdkStarted sc index false) w) = refs w ∧
  intervals (env (exec (sdkStarted sc index false) w)) = intervals (env w) ∧
  trace (env (exec (sdkStarted sc index false) w))
    = ConsoleError "Failed to start SDK playback" :: trace (env w).
Proof. unfold sdkStarted. by mred. Qed.

(** A rejected [audio.play()]: logged and not playing; the refs, and with
    them the interval set by [playTrackAtIndex], stay. *)
Lemma previewPlayFailed_spec w :
  ui (exec previewPlayFailed w) = cells_isPlaying false (ui w) ∧
  refs (exec previewPlayFailed w) = refs w ∧
  intervals (env (exec previewPlayFailed w)) = intervals (env w) ∧
  trace (env (exec previewPlayFailed w))
    = ConsoleError "Failed to play preview" :: trace (env w).
Proof. unfold previewPlayFailed. by mred. Qed.

(** [playTrackAtIndex] never touches the in-between audio. *)
Lemma playAt_keeps_inBetween sc index w :
  inBetweenAudioRef (refs (exec (playTrackAtIndex sc index) w))
    = inBetweenAudioRef (refs w).
Proof. unfold playTrackAtIndex. wrun w; reflexivity. Qed.

(** What it does release: the preview element and the interval. *)
Lemma playAt_releases sc index track w :
  sc_tracks sc !! index = Some track →
  truthy (sc_accessToken sc) = true →
  canUseSdk sc track = true →
  audioRef (refs (exec (playTrackAtIndex sc index) w)) = None ∧
  clipTimerRef (refs (exec (playTrackAtIndex sc index) w)) = None ∧
  (∀ h, clipTimerRef (refs w) = Some h →
        intervals (env (exec (playTrackAtIndex sc index) w)) !! h = None) ∧
  (∀ a, audioRef (refs w) = Some a →
        paused <$> audios (env (exec (playTrackAtIndex sc index) w)) !! a
          = (λ _, true) <$> audios (env w) !! a).
Proof.
  intros Ht Htok Hsdk. unfold playTrackAtIndex. rewrite Ht, Htok.
  cbn [negb]. rewrite Hsdk. cbn [negb andb].
  wrun w; split_and!; try done; intros ? ?; simplify_eq;
    rewrite ?lookup_delete_eq, ?lookup_alter_eq; try done;
    by destruct (audios0 !! a).
Qed.

(** The [then] after the last page always stores the tracks it was given,
    whatever playlist is selected when it runs. *)
Lemma tracksFetched_stores all w :
  tracks (ui (exec (tracksFetched all) w))
    = shuffled (λ k, rnd (env w) (rndCalls (env w) + k)) all ∧
  selectedPlaylistId (ui (exec (tracksFetched all) w))
    = selectedPlaylistId (ui w).
Proof. unfold tracksFetched. wrun w; done. Qed.

End Failures.

(** C9, the failing run: the first preview is started and [audio.play()]
    is rejected.  The failure is logged and the session is not playing,
    but the interval set by [playTrackAtIndex] is still there; when it
    reads 30 s it enters the advance chain, and 300 ms later the next
    track is started. *)
Theorem preview_failure_still_advances :
  isPlaying (ui previewRejected) = false ∧
  head (trace (env previewRejected))
    = Some (ConsoleError "Failed to play preview") ∧
  clipTimerRef (refs previewRejected) = Some 2%positive ∧
  intervals (env previewRejected) !! 2%positive
    = Some (PreviewTick (scope_of previewWorld) 0 0) ∧
  let w1 := after [Clock (30000 # 1); Tick 2%positive] previewRejected in
  currentIndex (ui w1) = Some 1 ∧
  head (trace (env w1))
    = Some (SetTimeout 300 (PlayNext (scope_of previewWorld) 1)) ∧
  let w2 := after [Settle 8 Resolved] w1 in
  currentIndex (ui w2) = Some 1 ∧ isPlaying (ui w2) = true ∧
  songsPlayed (ui w2) = 2.
Proof. vm_compute. repeat split; reflexivity. Qed.

(** C4, the failing run: while the in-between sound plays, a row is
    clicked.  [playTrackAtIndex] starts the clicked track and leaves the
    in-between element referenced and playing; when the sound ends, its
    handler starts the track after the one that had ended.  Separately,
    two clicks before either remote start settles leave two intervals
    set. *)
Theorem playAt_leaves_inBetween :
  inBetweenAudioRef (refs inBetweenPlaying) = Some 2%positive ∧
  paused <$> audios (env inBetweenPlaying) !! 2%positive = Some false ∧
  (let w1 := after [ClickRow 2] inBetweenPlaying in
   inBetweenAudioRef (refs w1) = Some 2%positive ∧
   paused <$> audios (env w1) !! 2%positive = Some false ∧
   currentIndex (ui w1) = Some 2 ∧
   head (trace (env w1))
     = Some (Fetch (PlayerPlay (Some "dev") (Some "tok")
                      (Some "spotify:track:c") SDK_CLIP_START_MS)
                   (SdkStarted (scope_of readyWorld) 2)) ∧
   let w2 := after [Ended 2%positive] w1 in
   currentIndex (ui w2) = Some 1 ∧
   head (trace (env w2))
     = Some (Fetch (PlayerPlay (Some "dev") (Some "tok")
                      (Some "spotify:track:b") SDK_CLIP_START_MS)
                   (SdkStarted (scope_of readyWorld) 1))) ∧
  size (intervals (env twoStarts)) = 2.
Proof. vm_compute. repeat split; reflexivity. Qed.

(** C2, the failing run: playlist A is selected and then playlist B; when
    the page of A arrives, its tracks are stored although B is selected,
    and when the profiles requested for A arrive they are stored too. *)
Theorem stale_page_is_applied :
  selectedPlaylistId (ui reselected) = Some "B" ∧
  tracks (ui reselected) = [] ∧
  userProfiles (ui reselected) = ∅ ∧
  let w1 := after [Settle 1 (GotPage pageA)] reselected in
  selectedPlaylistId (ui w1) = Some "B" ∧
  tracks (ui w1) = [trackA1] ∧
  let w2 := after [Settle 4 (GotProfiles [Some profileAnn])] w1 in
  selectedPlaylistId (ui w2) = Some "B" ∧
  userProfiles (ui w2) !! "ann"
    = Some {| displayName := "Ann"; imageUrl := None |}.
Proof. vm_compute. repeat split; reflexivity. Qed.

(** ** [audioRef] always points to an element *)

Section Attached.
Implicit Types (sc : Scope) (w : World).

Lemma exec_seq {A} (m : M A) (k : M unit) w :
  exec (m ;; k) w = exec k (exec m w).
Proof. unfold exec, mbind, M_bind. by destruct (m w). Qed.

Lemma is_Some_alter (f : AudioEl → AudioEl) h (m : gmap positive AudioEl) a :
  is_Some (alter f h m !! a) ↔ is_Some (m !! a).
Proof. rewrite lookup_alter. case_decide; simplify_eq; by rewrite ?fmap_is_Some. Qed.

Lemma is_Some_insert (x : AudioEl) h (m : gmap positive AudioEl) a :
  a = h ∨ is_Some (m !! a) → is_Some (<[h := x]> m !! a).
Proof.
  rewrite lookup_insert. case_decide; simplify_eq; [eauto |].
  by intros [? | ?].
Qed.

Ltac attached Hatt :=
  let a := fresh "a" in
  intros a ?; simplify_eq;
  repeat first [rewrite is_Some_alter | apply is_Some_insert];
  first [by left | right; by apply Hatt | by apply Hatt
        | left; reflexivity | idtac].

Lemma playAt_attached sc index w :
  audio_attached w → audio_attached (exec (playTrackAtIndex sc index) w).
Proof.
  unfold audio_attached, playTrackAtIndex. intros Hatt.
  wrun w; attached Hatt.
Qed.

Lemma doAdvance_attached sc n url w :
  audio_attached w → audio_attached (exec (doAdvance sc n url) w).
Proof.
  unfold audio_attached, doAdvance. intros Hatt.
  wrun w; attached Hatt.
Qed.

Lemma advanceToNext_attached sc index w :
  audio_attached w → audio_attached (exec (advanceToNext sc index) w).
Proof.
  unfold audio_attached, advanceToNext, doAdvance. intros Hatt.
  wrun w; attached Hatt.
Qed.

Lemma handleResume_attached sc w :
  audio_attached w → audio_attached (exec (handleResume sc) w).
Proof.
  unfold audio_attached, handleResume. intros Hatt.
  wrun w; attached Hatt.
Qed.

Lemma tick_attached t w :
  audio_attached w → audio_attached (exec (tick t) w).
Proof.
  intros Hatt.
  destruct (due_at t (now (env w))) eqn:Hdue.
  - destruct (hasAdvancedRef (refs w)) eqn:Hadv.
    + by rewrite tick_guarded.
    + revert Hatt. unfold audio_attached, due_at in *. intros Hatt.
      destruct t; cbn in Hdue;
        cbv [tick sdkTick previewTick sdkResumeTick previewResumeTick
             advanceToNext doAdvanceResume doAdvance];
        wsplit w; wred; rewrite Hdue;
        repeat (mcase; simplify_eq; wred); attached Hatt.
  - rewrite tick_early by done. exact Hatt.
Qed.

Lemma run_attached k o w :
  audio_attached w → audio_attached (exec (run k o) w).
Proof.
  intros Hatt. destruct k; cbn [run].
  - unfold audio_attached, sdkStarted in *. wrun w; attached Hatt.
  - unfold audio_attached, sdkResumed in *. wrun w; attached Hatt.
  - by apply doAdvance_attached.
  - unfold doAdvanceResume.
    change (exec _ w) with
      (exec (doAdvance sc nextIndex (selectedInBetweenSoundUrl (ui w))) w).
    by apply doAdvance_attached.
  - unfold inBetweenDone. rewrite !exec_seq. apply playAt_attached.
    unfold audio_attached in *. wrun w; attached Hatt.
  - by apply playAt_attached.
  - by apply advanceToNext_attached.
  - by apply advanceToNext_attached.
  - unfold audio_attached, previewPlayFailed in *. wrun w; attached Hatt.
  - unfold audio_attached, previewResumeFailed in *. wrun w; attached Hatt.
  - unfold audio_attached, pauseSettled in *. wrun w; attached Hatt.
  - unfold audio_attached, pageFetched, tracksFetched in *.
    wrun w; attached Hatt.
  - unfold audio_attached, profilesFetched in *. wrun w; attached Hatt.
Qed.

(** Every event keeps [audioRef] attached, so every world that the
    component reaches from its mounting satisfies it. *)
Lemma step_attached e w :
  audio_attached w → audio_attached (exec (step e) w).
Proof.
  intros Hatt. unfold step.
  change (exec _ w) with
    (exec (match e with
           | Clock t => modify (on_env (env_now t))
           | ClickRow index =>
               match tracks (ui w) !! index with
               | Some track =>
                   if isTrackPlayable track
                   then playTrackAtIndex (scope_of w) index else skip
               | None => skip
               end
           | ClickRowButton index =>
               match tracks (ui w) !! index with
               | Some track =>
                   if isTrackPlayable track
                   then handleRowPlayPause (scope_of w) index else skip
               | None => skip
               end
           | ClickPlayPause =>
               match currentIndex (ui w) with
               | None => skip
               | Some _ =>
                   if isPlaying (ui w) then handlePause (scope_of w)
                   else handleResume (scope_of w)
               end
           | ClickNext =>
               match currentIndex (ui w) with
               | None => skip
               | Some i =>
                   if length (tracks (ui w)) <=? i + 1 then skip
                   else handleNext (scope_of w)
               end
           | ClickPrev =>
               match currentIndex (ui w) with
               | None => skip
               | Some i => if i =? 0 then skip else handlePrev (scope_of w)
               end
           | SelectPlaylist playlistId =>
               if bool_decide (playlistId = selectedPlaylistId (ui w))
               then skip
               else setSelectedPlaylistId playlistId;; playlistEffect
           | SelectInBetween url => setSelectedInBetweenSoundUrl url
           | SdkReady device_id =>
               setDeviceId (Some device_id);; setPlayerReady true
           | SdkNotReady => setPlayerReady false
           | Tick h =>
               match intervals (env w) !! h with
               | Some t => tick t
               | None => skip
               end
           | Ended h =>
               match audios (env w) !! h with
               | Some el =>
                   match paused el, onended el with
                   | false, Some k => run k Resolved
                   | _, _ => skip
                   end
               | None => skip
               end
           | Settle n o =>
               match reverse (trace (env w)) !! n with
               | Some (Fetch _ k) => run k o
               | Some (SetTimeout _ k) => run k Resolved
               | Some (AudioPlay h k) =>
                   match o with
                   | Rejected =>
                       audio_update (el_paused true) h;; run k Rejected
                   | _ => skip
                   end
               | _ => skip
               end
           end) w).
  destruct e.
  - done.
  - destruct (_ !! _); [| done]. destruct (isTrackPlayable _); [| done].
    by apply playAt_attached.
  - destruct (_ !! _); [| done]. destruct (isTrackPlayable _); [| done].
    unfold handleRowPlayPause. destruct (_ !! _); [| done].
    destruct (negb _); [done |].
    change (exec _ w) with
      (exec (if bool_decide (currentIndex (ui w) = Some index)
                && isPlaying (ui w)
             then handlePause (scope_of w)
             else if bool_decide (currentIndex (ui w) = Some index)
                     && negb (isPlaying (ui w))
                  then handleResume (scope_of w)
                  else playTrackAtIndex (scope_of w) index) w).
    destruct (_ && _); [by apply handlePause_attached |].
    destruct (_ && _); [by apply handleResume_attached |].
    by apply playAt_attached.
  - destruct (currentIndex _); [| done].
    destruct (isPlaying _);
      [by apply handlePause_attached | by apply handleResume_attached].
  - destruct (currentIndex (ui w)) as [i|] eqn:Hi; [| done].
    destruct (_ <=? _); [done |].
    rewrite (handleNext_spec _ _ i) by done.
    destruct (_ <=? _); [done | by apply playAt_attached].
  - destruct (currentIndex (ui w)) as [i|] eqn:Hi; [| done].
    destruct (_ =? _) eqn:?; [done |].
    rewrite (handlePrev_spec _ _ i) by done.
    destruct (_ =? _); [done | by apply playAt_attached].
  - destruct (bool_decide _); [done |].
    unfold audio_attached, playlistEffect in *. wrun w; attached Hatt.
  - done.
  - done.
  - done.
  - destruct (_ !! _); [by apply tick_attached | done].
  - destruct (_ !! _) as [el|]; [| done].
    destruct (paused el); [done |].
    destruct (onended el); [by apply run_attached | done].
  - destruct (_ !! _) as [[]|]; try done.
    + by apply run_attached.
    + destruct o; try done. rewrite exec_seq. apply run_attached.
      unfold audio_attached in *. wrun w; attached Hatt.
    + by apply run_attached.
Qed.

Lemma after_attached es : ∀ w,
  audio_attached w → audio_attached (after es w).
Proof.
  induction es as [|e es IH]; intros w Hatt; [done |].
  apply (IH (exec (step e) w)). by apply step_attached.
Qed.

Lemma mount_attached token device ready list :
  audio_attached (mount token device ready list).
Proof. intros a Ha. discriminate. Qed.

End Attached.

(** * Further properties *)

(** ** generateRandomString *)

Section RandomString.

Lemma Qfloor_scaled r (n : nat) :
  0 < n → (0 <= r)%Q → (r < 1)%Q →
  (0 ≤ Qfloor (r * inject_Z (Z.of_nat n)) < Z.of_nat n)%Z.
Proof.
  intros Hn H0 H1. set (q := inject_Z (Z.of_nat n)).
  assert (Hq : (0 < q)%Q) by (unfold q; rewrite <- (Zlt_Qlt 0); lia).
  split.
  - change 0%Z with (Qfloor 0). apply Qfloor_resp_le.
    apply Qmult_le_0_compat; [done | by apply Qlt_le_weak].
  - rewrite Zlt_Qlt. fold q.
    eapply Qle_lt_trans; [apply Qfloor_le |].
    pose proof (Qmult_lt_compat_r r 1 q Hq H1) as Hm.
    by rewrite Qmult_1_l in Hm.
Qed.

Lemma length_string_of_list (l : list ascii) :
  String.length (String.string_of_list_ascii l) = length l.
Proof. induction l as [|c l IH]; [done |]. cbn. by rewrite IH. Qed.

(** Inside the alphabet [charAt] gives one alphanumeric character. *)
Lemma charAt_possible j :
  (0 ≤ j < 62)%Z → ∃ c, charAt possible j = [c] ∧ alphanumeric c = true.
Proof.
  intros [H0 H62]. unfold charAt.
  rewrite (proj2 (Z.ltb_ge j 0)) by done.
  assert (Hn : Z.to_nat j < 62) by lia.
  generalize dependent (Z.to_nat j). intros n Hn.
  do 62 (destruct n as [|n]; [vm_compute; eauto |]). lia.
Qed.

Lemma generate_loop_spec rnd n : ∀ calls text,
  random_source rnd →
  Forall (λ c, alphanumeric c = true) text →
  length (generate_loop rnd calls n text) = length text + n ∧
  Forall (λ c, alphanumeric c = true) (generate_loop rnd calls n text).
Proof.
  induction n as [|n IH]; intros calls text Hrnd Htext.
  - cbn. split; [lia | done].
  - cbn [generate_loop].
    destruct (Hrnd calls) as [H0 H1].
    destruct (charAt_possible
                (Qfloor (rnd calls * inject_Z (Z.of_nat (String.length possible)))))
      as (c & -> & Hc).
    { apply (Qfloor_scaled _ 62); [lia | done | done]. }
    destruct (IH (S calls) (text ++ [c]) Hrnd) as [Hlen Hall].
    { apply Forall_app. split; [done | by constructor]. }
    split; [| done]. rewrite Hlen, length_app. cbn. lia.
Qed.

(** X1: with [Math.random()] in [0, 1), [generateRandomString(length)] has
    exactly [length] characters (none for a length of 0 or less), each of
    them a letter or a digit. *)
Theorem generateRandomString_alphanumeric rnd (n : Z) :
  random_source rnd →
  String.length (generateRandomString rnd n) = Z.to_nat n ∧
  Forall (λ c, alphanumeric c = true)
    (String.list_ascii_of_string (generateRandomString rnd n)).
Proof.
  intros Hrnd. unfold generateRandomString.
  destruct (generate_loop_spec rnd (Z.to_nat n) 0 [] Hrnd) as [Hlen Hall];
    [by constructor |].
  rewrite length_string_of_list, String.list_ascii_of_string_of_list_ascii.
  by split.
Qed.

End RandomString.

Example generateRandomString_half :
  generateRandomString rnd_half 4 = "ffff".
Proof. vm_compute. reflexivity. Qed.

Lemma generateRandomString_alphanumeric_witness :
  String.length (generateRandomString rnd_half 128) = 128 ∧
  Forall (λ c, alphanumeric c = true)
    (String.list_ascii_of_string (generateRandomString rnd_half 128)).
Proof.
  apply (generateRandomString_alphanumeric rnd_half 128).
  intros k. split; vm_compute; [discriminate | reflexivity].
Defined.

(** ** base64UrlEncode *)

Section Base64Url.

Lemma replace_both s :
  replaceAll "/" "_" (replaceAll "+" "-" s) = urlChar <$> s.
Proof.
  unfold replaceAll. rewrite <- list_fmap_compose. apply list_fmap_ext.
  intros _ c _. cbn. unfold urlChar. by destruct (Ascii.eqb c "+").
Qed.

(** A six-bit value is encoded by a character of the URL-safe alphabet. *)
Lemma urlChar_b64char n :
  n < 64 → urlSafe (urlChar (b64char n)) = true
           ∧ urlChar (b64char n) ≠ "="%char.
Proof.
  intros Hn.
  do 64 (destruct n as [|n]; [vm_compute; split; [reflexivity | discriminate] |]).
  lia.
Qed.

Lemma sextets a b c :
  a < 256 → b < 256 → c < 256 →
  a / 4 < 64 ∧ (a mod 4) * 16 < 64 ∧ (a mod 4) * 16 + b / 16 < 64 ∧
  (b mod 16) * 4 < 64 ∧ (b mod 16) * 4 + c / 64 < 64 ∧ c mod 64 < 64.
Proof.
  intros Ha Hb Hc.
  pose proof (Nat.mod_upper_bound a 4). pose proof (Nat.mod_upper_bound b 16).
  pose proof (Nat.mod_upper_bound c 64).
  assert (a / 4 < 64) by (apply Nat.Div0.div_lt_upper_bound; lia).
  assert (b / 16 < 16) by (apply Nat.Div0.div_lt_upper_bound; lia).
  assert (c / 64 < 4) by (apply Nat.Div0.div_lt_upper_bound; lia).
  lia.
Qed.

Lemma list_ind3 {A} (P : list A → Prop) :
  P [] → (∀ a, P [a]) → (∀ a b, P [a; b]) →
  (∀ a b c rest, P rest → P (a :: b :: c :: rest)) →
  ∀ l, P l.
Proof.
  intros H0 H1 H2 H3 l.
  assert (H : P l ∧ (∀ a, P (a :: l)) ∧ (∀ a b, P (a :: b :: l))).
  { induction l as [|x l (IH0 & IH1 & IH2)]; [by auto |].
    split_and!; [apply IH1 | intros a; apply IH2 | intros a b; by apply H3]. }
  apply H.
Qed.

(** The encoding before the padding is dropped: URL-safe characters, four
    for every three bytes, followed by nothing but [=]. *)
Lemma btoa_url_shape (binary : list ascii) :
  ∃ body pad,
    urlChar <$> btoa binary = body ++ pad ∧
    Forall (λ c, urlSafe c = true ∧ c ≠ "="%char) body ∧
    Forall (λ c, c = "="%char) pad ∧
    length body = (4 * length binary + 2) / 3.
Proof.
  induction binary as [| a | a b | a b c rest IH] using list_ind3.
  - exists [], []. by split_and!.
  - pose proof (nat_ascii_bounded a) as Ha.
    destruct (sextets _ 0 0 Ha) as (H1 & H2 & _); [lia | lia |].
    exists [urlChar (b64char (nat_of_ascii a / 4));
            urlChar (b64char (nat_of_ascii a mod 4 * 16))], ["="%char; "="%char].
    split_and!; [done | | by repeat constructor | done].
    repeat constructor; by apply urlChar_b64char.
  - pose proof (nat_ascii_bounded a) as Ha.
    pose proof (nat_ascii_bounded b) as Hb.
    destruct (sextets _ _ 0 Ha Hb) as (H1 & _ & H2 & H3 & _); [lia |].
    exists [urlChar (b64char (nat_of_ascii a / 4));
            urlChar (b64char (nat_of_ascii a mod 4 * 16 + nat_of_ascii b / 16));
            urlChar (b64char (nat_of_ascii b mod 16 * 4))], ["="%char].
    split_and!; [done | | by repeat constructor | done].
    repeat constructor; by apply urlChar_b64char.
  - destruct IH as (body & pad & Henc & Hbody & Hpad & Hlen).
    pose proof (nat_ascii_bounded a) as Ha.
    pose proof (nat_ascii_bounded b) as Hb.
    pose proof (nat_ascii_bounded c) as Hc.
    destruct (sextets _ _ _ Ha Hb Hc) as (H1 & _ & H2 & _ & H3 & H4).
    exists (urlChar (b64char (nat_of_ascii a / 4))
            :: urlChar (b64char (nat_of_ascii a mod 4 * 16 + nat_of_ascii b / 16))
            :: urlChar (b64char (nat_of_ascii b mod 16 * 4 + nat_of_ascii c / 64))
            :: urlChar (b64char (nat_of_ascii c mod 64)) :: body), pad.
    split_and!.
    + cbn [btoa fmap list_fmap]. cbn [fmap] in Henc. by rewrite Henc.
    + repeat (constructor; [by apply urlChar_b64char |]). done.
    + done.
    + cbn [length]. rewrite Hlen.
      replace (4 * S (S (S (length rest))) + 2)
        with (4 * length rest + 2 + 4 * 3) by lia.
      rewrite Nat.div_add by lia. lia.
Qed.

Lemma dropTrailing_all x pad :
  Forall (λ c, c = x) pad → dropTrailing x pad = [].
Proof.
  induction 1 as [|c pad -> _ IH]; [done |].
  cbn. by rewrite IH, Ascii.eqb_refl.
Qed.

Lemma dropTrailing_app x body pad :
  Forall (λ c, c ≠ x) body → Forall (λ c, c = x) pad →
  dropTrailing x (body ++ pad) = body.
Proof.
  intros Hbody Hpad. induction Hbody as [|c body Hc _ IH].
  - by apply dropTrailing_all.
  - cbn. rewrite IH. destruct body; [| done].
    by rewrite (proj2 (Ascii.eqb_neq c x)).
Qed.

(** X2: for every byte array, [base64UrlEncode] returns only letters,
    digits, [-] and [_] (no [+], no [/], no [=]), and as many characters as
    unpadded Base64 has: four for three bytes, rounded up. *)
Theorem base64UrlEncode_url_safe (input : list Byte.byte) :
  Forall (λ c, urlSafe c = true)
    (String.list_ascii_of_string (base64UrlEncode input)) ∧
  String.length (base64UrlEncode input) = (4 * length input + 2) / 3.
Proof.
  unfold base64UrlEncode.
  rewrite String.list_ascii_of_string_of_list_ascii, length_string_of_list.
  rewrite replace_both.
  destruct (btoa_url_shape (ascii_of_byte <$> input))
    as (body & pad & -> & Hbody & Hpad & Hlen).
  rewrite dropTrailing_app; [| | done].
  - split; [| by rewrite Hlen, length_fmap].
    eapply Forall_impl; [exact Hbody |]. by intros c [? _].
  - eapply Forall_impl; [exact Hbody |]. by intros c [_ ?].
Qed.

End Base64Url.

Example base64UrlEncode_hello :
  base64UrlEncode [Byte.x48; Byte.x65; Byte.x6c; Byte.x6c; Byte.x6f] = "SGVsbG8".
Proof. vm_compute. reflexivity. Qed.

(** Bytes whose standard encoding is [+/8=]. *)
Example base64UrlEncode_symbols :
  base64UrlEncode [Byte.xfb; Byte.xff] = "-_8".
Proof. vm_compute. reflexivity. Qed.

(** ** Starting a clip *)

Section Start.
Implicit Types (sc : Scope) (w : World) (track : Track).


End Start.


(** ** What a tick publishes *)

Section Publish.
Implicit Types (t : Ticker) (w : World) (n : Q).

Lemma published_eq t n w :
  hasAdvancedRef (refs w) = false →
  published t n w = if due_at t n then tk_limit t else tk_elapsed t n.
Proof.
  intros Hadv. unfold published.
  destruct (due_at t n) eqn:Hdue.
  - by destruct (tick_fires t (on_env (env_now n) w)) as (_ & _ & _ & -> & _).
  - by rewrite tick_early.
Qed.

Lemma tk_elapsed_mono t n1 n2 :
  (n1 <= n2)%Q → (tk_elapsed t n1 <= tk_elapsed t n2)%Q.
Proof.
  intros Hn. destruct t; cbn [tk_elapsed]; unfold Qminus;
    repeat first [apply Qplus_le_compat | apply Qle_refl | exact Hn].
Qed.

(** X4: while the guard is unset, the elapsed time that an interval
    callback publishes never exceeds the duration of its clip, equals it
    from the moment the clip is at its end, and does not decrease when the
    clock advances. *)
Theorem tick_publishes_bounded_monotone t w n1 n2 :
  hasAdvancedRef (refs w) = false → (n1 <= n2)%Q →
  (published t n1 w <= published t n2 w)%Q ∧
  (published t n2 w <= tk_limit t)%Q ∧
  (due_at t n1 = true → published t n2 w = tk_limit t).
Proof.
  intros Hadv Hn. rewrite !published_eq by done.
  pose proof (tk_elapsed_mono t n1 n2 Hn) as Hmono.
  unfold due_at.
  destruct (Qle_bool (tk_limit t) (tk_elapsed t n1)) eqn:H1;
    destruct (Qle_bool (tk_limit t) (tk_elapsed t n2)) eqn:H2.
  - split_and!; [apply Qle_refl | apply Qle_refl | done].
  - apply Qle_bool_iff in H1.
    assert (Qle_bool (tk_limit t) (tk_elapsed t n2) = true) as H2'.
    { apply Qle_bool_iff. by eapply Qle_trans. }
    congruence.
  - assert (tk_elapsed t n1 < tk_limit t)%Q as Hlt.
    { apply Qnot_le_lt. intros Hle. apply Qle_bool_iff in Hle. congruence. }
    split_and!; [by apply Qlt_le_weak | apply Qle_refl | done].
  - assert (tk_elapsed t n2 < tk_limit t)%Q as Hlt.
    { apply Qnot_le_lt. intros Hle. apply Qle_bool_iff in Hle. congruence. }
    split_and!; [done | by apply Qlt_le_weak | done].
Qed.

End Publish.

Lemma tick_publishes_bounded_monotone_witness :
  (published (SdkTick (scope_of readyWorld) 0 0) (59000 # 1) playingFull
   <= published (SdkTick (scope_of readyWorld) 0 0) (61000 # 1) playingFull)%Q ∧
  (published (SdkTick (scope_of readyWorld) 0 0) (61000 # 1) playingFull
   <= SDK_CLIP_DURATION_MS)%Q.
Proof.
  destruct (tick_publishes_bounded_monotone
              (SdkTick (scope_of readyWorld) 0 0) playingFull
              (59000 # 1) (61000 # 1)) as (H1 & H2 & _).
  - reflexivity.
  - vm_compute. discriminate.
  - split; [exact H1 | exact H2].
Defined.

(** ** Cancelling the timer, pausing *)

Section Pause.
Implicit Types (sc : Scope) (w : World).

(** X5: [clearClipTimer] is idempotent, and after it the interval that
    [clipTimerRef] held is no longer set, so that its tick does nothing. *)
Theorem clearClipTimer_cancels w :
  exec clearClipTimer (exec clearClipTimer w) = exec clearClipTimer w ∧
  clipTimerRef (refs (exec clearClipTimer w)) = None ∧
  ∀ h, clipTimerRef (refs w) = Some h →
       intervals (env (exec clearClipTimer w)) !! h = None ∧
       exec (step (Tick h)) (exec clearClipTimer w) = exec clearClipTimer w.
Proof.
  split_and!.
  - mred. destruct (clipTimerRef (refs w)) eqn:Hc; cbn; [done |].
    by rewrite Hc.
  - mred. by destruct (clipTimerRef (refs w)) eqn:Hc.
  - intros h Hh.
    assert (Hgone : intervals (env (exec clearClipTimer w)) !! h = None).
    { mred. rewrite Hh. cbn. apply lookup_delete_eq. }
    split; [done |].
    unfold step. set (w' := exec clearClipTimer w) in *.
    cbv [exec mbind M_bind get]. cbn. by rewrite Hgone.
Qed.

Lemma tick_unset h w :
  intervals (env w) !! h = None → exec (step (Tick h)) w = w.
Proof.
  intros Hh. unfold step. cbv [exec mbind M_bind get]. cbn. by rewrite Hh.
Qed.

Lemma handlePause_timer sc w :
  clipTimerRef (refs (exec (handlePause sc) w)) = None ∧
  ∀ h, clipTimerRef (refs w) = Some h →
       intervals (env (exec (handlePause sc) w)) !! h = None.
Proof.
  unfold handlePause.
  wrun w; (split; [done |]); intros ? ?; simplify_eq; apply lookup_delete_eq.
Qed.

Lemma handlePause_inBetween sc w :
  inBetweenAudioRef (refs (exec (handlePause sc) w)) = None ∧
  ∀ a, inBetweenAudioRef (refs w) = Some a →
       paused <$> audios (env (exec (handlePause sc) w)) !! a
         = (λ _, true) <$> audios (env w) !! a ∧
       currentTime <$> audios (env (exec (handlePause sc) w)) !! a
         = (λ _, 0%Q) <$> audios (env w) !! a.
Proof.
  unfold handlePause.
  wrun w; (split; [done |]); intros a ?; simplify_eq;
    repeat (rewrite lookup_alter; case_decide; simplify_eq);
    by destruct (audios0 !! a).
Qed.

Lemma handlePause_cells sc w :
  currentIndex (ui (exec (handlePause sc) w)) = currentIndex (ui w) ∧
  clipElapsedMs (ui (exec (handlePause sc) w)) = clipElapsedMs (ui w) ∧
  songsPlayed (ui (exec (handlePause sc) w)) = songsPlayed (ui w) ∧
  hasAdvancedRef (refs (exec (handlePause sc) w)) = hasAdvancedRef (refs w) ∧
  useSdkRef (refs (exec (handlePause sc) w)) = useSdkRef (refs w) ∧
  audioRef (refs (exec (handlePause sc) w)) = audioRef (refs w).
Proof. unfold handlePause. wrun w; done. Qed.

Lemma handlePause_remote sc w :
  useSdkRef (refs w) && truthy (sc_deviceId sc) && truthy (sc_accessToken sc)
    = true →
  head (trace (env (exec (handlePause sc) w)))
    = Some (Fetch (PlayerPause (sc_deviceId sc) (sc_accessToken sc))
                  PauseSettled) ∧
  isPlaying (ui (exec (handlePause sc) w)) = isPlaying (ui w).
Proof.
  intros Hsdk. unfold handlePause. wsplit w. wred.
  repeat (first [rewrite Hsdk | mcase]; simplify_eq; wred); done.
Qed.

Lemma handlePause_local sc w :
  useSdkRef (refs w) && truthy (sc_deviceId sc) && truthy (sc_accessToken sc)
    = false →
  isPlaying (ui (exec (handlePause sc) w)) = false ∧
  ∀ a, audioRef (refs w) = Some a →
       paused <$> audios (env (exec (handlePause sc) w)) !! a
         = (λ _, true) <$> audios (env w) !! a.
Proof.
  intros Hsdk. unfold handlePause. wsplit w. wred.
  repeat (first [rewrite Hsdk | mcase]; simplify_eq; wred); (split; [done |]);
    intros a ?; simplify_eq;
    repeat (rewrite lookup_alter; case_decide; simplify_eq);
    by destruct (audios0 !! a).
Qed.

(** X6: [handlePause] cancels the timer, so that a tick of the interval
    it held does nothing any more, and stops the in-between sound (paused,
    rewound, forgotten).  It leaves the current index, the elapsed time,
    the play count, the guard, the backend and [audioRef] as they were.
    With the full backend and a device it requests the remote pause and
    leaves it to the settlement to mark the session not playing;
    otherwise it pauses the preview element and marks it at once. *)
Theorem handlePause_stops sc w :
  let w' := exec (handlePause sc) w in
  clipTimerRef (refs w') = None ∧
  (∀ h, clipTimerRef (refs w) = Some h →
        intervals (env w') !! h = None ∧ exec (step (Tick h)) w' = w') ∧
  inBetweenAudioRef (refs w') = None ∧
  (∀ a, inBetweenAudioRef (refs w) = Some a →
        paused <$> audios (env w') !! a = (λ _, true) <$> audios (env w) !! a ∧
        currentTime <$> audios (env w') !! a
          = (λ _, 0%Q) <$> audios (env w) !! a) ∧
  currentIndex (ui w') = currentIndex (ui w) ∧
  clipElapsedMs (ui w') = clipElapsedMs (ui w) ∧
  songsPlayed (ui w') = songsPlayed (ui w) ∧
  hasAdvancedRef (refs w') = hasAdvancedRef (refs w) ∧
  useSdkRef (refs w') = useSdkRef (refs w) ∧
  audioRef (refs w') = audioRef (refs w) ∧
  if useSdkRef (refs w) && truthy (sc_deviceId sc) && truthy (sc_accessToken sc)
  then
    head (trace (env w'))
      = Some (Fetch (PlayerPause (sc_deviceId sc) (sc_accessToken sc))
                    PauseSettled) ∧
    isPlaying (ui w') = isPlaying (ui w) ∧
    isPlaying (ui (exec (run PauseSettled Resolved) w')) = false ∧
    isPlaying (ui (exec (run PauseSettled Rejected) w')) = false
  else
    isPlaying (ui w') = false ∧
    ∀ a, audioRef (refs w) = Some a →
         paused <$> audios (env w') !! a = (λ _, true) <$> audios (env w) !! a.
Proof.
  intros w'. subst w'.
  destruct (handlePause_timer sc w) as [Href Hgone].
  destruct (handlePause_inBetween sc w) as [Hib Hel].
  destruct (handlePause_cells sc w) as (? & ? & ? & ? & ? & ?).
  split_and!; try done.
  - intros h Hh. split; [by apply Hgone |]. apply tick_unset. by apply Hgone.
  - destruct (_ && _) eqn:Hsdk.
    + destruct (handlePause_remote sc w Hsdk) as [? ?].
      split_and!; try done; by apply pauseSettled_keeps.
    + by apply handlePause_local.
Qed.

End Pause.

(** ** What every event keeps *)

Section Invariant.
Implicit Types (sc : Scope) (w : World).

Ltac inv_open Hinv :=
  unfold session_inv, timer_live, inBetween_attached, ended_not_playing,
    duration_known in *;
  destruct Hinv as (Ht & Hb & He & Hd).

Ltac inv_close Ht Hb He Hd :=
  split_and!;
  [ intros ? ?; simplify_eq;
    first [by rewrite lookup_insert_eq | by apply Ht | done]
  | intros ? ?; simplify_eq;
    repeat first [rewrite is_Some_alter | apply is_Some_insert];
    first [by left | right; by apply Hb | by apply Hb | done]
  | intros ?; simplify_eq; first [done | by apply He]
  | first [by left | by right | exact Hd] ].

Lemma playAt_inv sc index w :
  session_inv w → session_inv (exec (playTrackAtIndex sc index) w).
Proof.
  intros Hinv. inv_open Hinv. unfold playTrackAtIndex.
  wrun w; inv_close Ht Hb He Hd.
Qed.

Lemma doAdvance_inv sc n url w :
  session_inv w → session_inv (exec (doAdvance sc n url) w).
Proof.
  intros Hinv. inv_open Hinv. unfold doAdvance.
  wrun w; inv_close Ht Hb He Hd.
Qed.

Lemma advanceToNext_inv sc index w :
  session_inv w → session_inv (exec (advanceToNext sc index) w).
Proof.
  intros Hinv. inv_open Hinv. unfold advanceToNext, doAdvance.
  wrun w; inv_close Ht Hb He Hd.
Qed.

Lemma handleResume_inv sc w :
  session_inv w → session_inv (exec (handleResume sc) w).
Proof.
  intros Hinv. inv_open Hinv. unfold handleResume.
  wrun w; inv_close Ht Hb He Hd.
Qed.

Lemma handlePause_inv sc w :
  session_inv w → session_inv (exec (handlePause sc) w).
Proof.
  intros Hinv. inv_open Hinv. unfold handlePause.
  wrun w; inv_close Ht Hb He Hd.
Qed.

Lemma tick_inv t w : session_inv w → session_inv (exec (tick t) w).
Proof.
  intros Hinv.
  destruct (due_at t (now (env w))) eqn:Hdue.
  - destruct (hasAdvancedRef (refs w)) eqn:Hadv.
    + by rewrite tick_guarded.
    + inv_open Hinv. unfold due_at in *.
      destruct t; cbn in Hdue;
        cbv [tick sdkTick previewTick sdkResumeTick previewResumeTick
             advanceToNext doAdvanceResume doAdvance];
        wsplit w; wred; rewrite Hdue;
        repeat (mcase; simplify_eq; wred); inv_close Ht Hb He Hd.
  - rewrite tick_early by done. inv_open Hinv. wsplit w.
    inv_close Ht Hb He Hd.
Qed.

Lemma run_inv k o w : session_inv w → session_inv (exec (run k o) w).
Proof.
  intros Hinv. destruct k; cbn [run].
  - inv_open Hinv. unfold sdkStarted. wrun w; inv_close Ht Hb He Hd.
  - inv_open Hinv. unfold sdkResumed. wrun w; inv_close Ht Hb He Hd.
  - by apply doAdvance_inv.
  - unfold doAdvanceResume.
    change (exec _ w) with
      (exec (doAdvance sc nextIndex (selectedInBetweenSoundUrl (ui w))) w).
    by apply doAdvance_inv.
  - unfold inBetweenDone. rewrite !exec_seq. apply playAt_inv.
    inv_open Hinv. wrun w; inv_close Ht Hb He Hd.
  - by apply playAt_inv.
  - by apply advanceToNext_inv.
  - by apply advanceToNext_inv.
  - inv_open Hinv. unfold previewPlayFailed. wrun w; inv_close Ht Hb He Hd.
  - inv_open Hinv. unfold previewResumeFailed. wrun w; inv_close Ht Hb He Hd.
  - inv_open Hinv. unfold pauseSettled. wrun w; inv_close Ht Hb He Hd.
  - inv_open Hinv. unfold pageFetched, tracksFetched.
    wrun w; inv_close Ht Hb He Hd.
  - inv_open Hinv. unfold profilesFetched. wrun w; inv_close Ht Hb He Hd.
Qed.

End Invariant.

(** A property of worlds that the handlers keep is kept by every event. *)
Section StepPreserves.
Variable I : World → Prop.
Hypothesis I_playAt : ∀ sc i w, I w → I (exec (playTrackAtIndex sc i) w).
Hypothesis I_pause : ∀ sc w, I w → I (exec (handlePause sc) w).
Hypothesis I_resume : ∀ sc w, I w → I (exec (handleResume sc) w).
Hypothesis I_tick : ∀ t w, I w → I (exec (tick t) w).
Hypothesis I_run : ∀ k o w, I w → I (exec (run k o) w).
Hypothesis I_select : ∀ v w,
  I w → I (exec (setSelectedPlaylistId v;; playlistEffect) w).
Hypothesis I_clock : ∀ t w, I w → I (exec (modify (on_env (env_now t))) w).
Hypothesis I_sound : ∀ v w, I w → I (exec (setSelectedInBetweenSoundUrl v) w).
Hypothesis I_ready : ∀ d w,
  I w → I (exec (setDeviceId (Some d);; setPlayerReady true) w).
Hypothesis I_not_ready : ∀ w, I w → I (exec (setPlayerReady false) w).
Hypothesis I_refused : ∀ h w,
  I w → I (exec (audio_update (el_paused true) h) w).

Lemma step_preserves e w : I w → I (exec (step e) w).
Proof.
  intros HI. unfold step.
  change (exec _ w) with
    (exec (match e with
           | Clock t => modify (on_env (env_now t))
           | ClickRow index =>
               match tracks (ui w) !! index with
               | Some track =>
                   if isTrackPlayable track
                   then playTrackAtIndex (scope_of w) index else skip
               | None => skip
               end
           | ClickRowButton index =>
               match tracks (ui w) !! index with
               | Some track =>
                   if isTrackPlayable track
                   then handleRowPlayPause (scope_of w) index else skip
               | None => skip
               end
           | ClickPlayPause =>
               match currentIndex (ui w) with
               | None => skip
               | Some _ =>
                   if isPlaying (ui w) then handlePause (scope_of w)
                   else handleResume (scope_of w)
               end
           | ClickNext =>
               match currentIndex (ui w) with
               | None => skip
               | Some i =>
                   if length (tracks (ui w)) <=? i + 1 then skip
                   else handleNext (scope_of w)
               end
           | ClickPrev =>
               match currentIndex (ui w) with
               | None => skip
               | Some i => if i =? 0 then skip else handlePrev (scope_of w)
               end
           | SelectPlaylist playlistId =>
               if bool_decide (playlistId = selectedPlaylistId (ui w))
               then skip
               else setSelectedPlaylistId playlistId;; playlistEffect
           | SelectInBetween url => setSelectedInBetweenSoundUrl url
           | SdkReady device_id =>
               setDeviceId (Some device_id);; setPlayerReady true
           | SdkNotReady => setPlayerReady false
           | Tick h =>
               match intervals (env w) !! h with
               | Some t => tick t
               | None => skip
               end
           | Ended h =>
               match audios (env w) !! h with
               | Some el =>
                   match paused el, onended el with
                   | false, Some k => run k Resolved
                   | _, _ => skip
                   end
               | None => skip
               end
           | Settle n o =>
               match reverse (trace (env w)) !! n with
               | Some (Fetch _ k) => run k o
               | Some (SetTimeout _ k) => run k Resolved
               | Some (AudioPlay h k) =>
                   match o with
                   | Rejected =>
                       audio_update (el_paused true) h;; run k Rejected
                   | _ => skip
                   end
               | _ => skip
               end
           end) w).
  destruct e.
  - by apply I_clock.
  - destruct (_ !! _); [| done]. destruct (isTrackPlayable _); [| done].
    by apply I_playAt.
  - destruct (_ !! _); [| done]. destruct (isTrackPlayable _); [| done].
    unfold handleRowPlayPause. destruct (_ !! _); [| done].
    destruct (negb _); [done |].
    change (exec _ w) with
      (exec (if bool_decide (currentIndex (ui w) = Some index)
                && isPlaying (ui w)
             then handlePause (scope_of w)
             else if bool_decide (currentIndex (ui w) = Some index)
                     && negb (isPlaying (ui w))
                  then handleResume (scope_of w)
                  else playTrackAtIndex (scope_of w) index) w).
    destruct (_ && _); [by apply I_pause |].
    destruct (_ && _); [by apply I_resume | by apply I_playAt].
  - destruct (currentIndex _); [| done].
    destruct (isPlaying _); [by apply I_pause | by apply I_resume].
  - destruct (currentIndex (ui w)) as [i|] eqn:Hi; [| done].
    destruct (_ <=? _); [done |].
    rewrite (handleNext_spec _ _ i) by done.
    destruct (_ <=? _); [done | by apply I_playAt].
  - destruct (currentIndex (ui w)) as [i|] eqn:Hi; [| done].
    destruct (_ =? _) eqn:?; [done |].
    rewrite (handlePrev_spec _ _ i) by done.
    destruct (_ =? _); [done | by apply I_playAt].
  - destruct (bool_decide _); [done | by apply I_select].
  - by apply I_sound.
  - by apply I_ready.
  - by apply I_not_ready.
  - destruct (_ !! _); [by apply I_tick | done].
  - destruct (_ !! _) as [el|]; [| done].
    destruct (paused el); [done |].
    destruct (onended el); [by apply I_run | done].
  - destruct (_ !! _) as [[]|]; try done.
    + by apply I_run.
    + destruct o; try done. rewrite exec_seq. by apply I_run, I_refused.
    + by apply I_run.
Qed.

Lemma after_preserves es : ∀ w, I w → I (after es w).
Proof.
  induction es as [|e es IH]; intros w HI; [done |].
  apply (IH (exec (step e) w)). by apply step_preserves.
Qed.

End StepPreserves.

(** X7: in every state that the component reaches from its mounting,
    whatever the events: [clipTimerRef] holds an interval that is set,
    [inBetweenAudioRef] points to an existing element, a set guard means
    the session is shown as not playing, and the clip duration is 60 s or,
    only with the preview backend, 30 s. *)
Theorem reachable_session_inv token device ready list es :
  session_inv (after es (mount token device ready list)).
Proof.
  apply after_preserves.
  - apply playAt_inv.
  - apply handlePause_inv.
  - apply handleResume_inv.
  - apply tick_inv.
  - apply run_inv.
  - intros v w Hinv. unfold session_inv, timer_live, inBetween_attached,
      ended_not_playing, duration_known in *.
    destruct Hinv as (Ht & Hb & He & Hd). unfold playlistEffect.
    wrun w; split_and!; try done.
  - intros t w Hinv. unfold session_inv, timer_live, inBetween_attached,
      ended_not_playing, duration_known in *.
    destruct Hinv as (Ht & Hb & He & Hd). wrun w; split_and!; done.
  - intros v w Hinv. unfold session_inv, timer_live, inBetween_attached,
      ended_not_playing, duration_known in *.
    destruct Hinv as (Ht & Hb & He & Hd). wrun w; split_and!; done.
  - intros d w Hinv. unfold session_inv, timer_live, inBetween_attached,
      ended_not_playing, duration_known in *.
    destruct Hinv as (Ht & Hb & He & Hd). wrun w; split_and!; done.
  - intros w Hinv. unfold session_inv, timer_live, inBetween_attached,
      ended_not_playing, duration_known in *.
    destruct Hinv as (Ht & Hb & He & Hd). wrun w; split_and!; done.
  - intros h w Hinv. unfold session_inv, timer_live, inBetween_attached,
      ended_not_playing, duration_known in *.
    destruct Hinv as (Ht & Hb & He & Hd).
    wrun w; split_and!; try done.
    intros a Ha. rewrite is_Some_alter. by apply Hb.
  - unfold session_inv, timer_live, inBetween_attached, ended_not_playing,
      duration_known, mount. cbn. split_and!; try done. by left.
Qed.

(** ** No remote start without a ready device *)

Section NoRemoteStart.
Implicit Types (sc : Scope) (w : World).

Lemma adds_no_refl P w : adds_no P w w.
Proof. by exists []. Qed.

Lemma adds_no_cons P (l l' : list Effect) e :
  (∃ later, l' = later ++ l ∧ Forall (λ e, P e = false) later) →
  P e = false →
  ∃ later, e :: l' = later ++ l ∧ Forall (λ e, P e = false) later.
Proof.
  intros (later & -> & Hall) He. exists (e :: later). split; [done |].
  by constructor.
Qed.

Ltac adds_no_solve :=
  unfold adds_no; cbn;
  repeat (apply adds_no_cons; [| reflexivity]);
  by exists [].

Lemma canUseSdk_not_ready sc track :
  sc_playerReady sc = false ∨ truthy (sc_deviceId sc) = false →
  canUseSdk sc track = false.
Proof.
  unfold canUseSdk. intros [-> | ->]; [done |].
  by destruct (sc_playerReady sc).
Qed.

(** A handler whose render saw the player not ready, or no device,
    requests no remote start. *)
Lemma handlers_no_remote_start sc w :
  sc_playerReady sc = false ∨ truthy (sc_deviceId sc) = false →
  (∀ index, adds_no remote_start w (exec (playTrackAtIndex sc index) w)) ∧
  adds_no remote_start w (exec (handleResume sc) w) ∧
  adds_no remote_start w (exec (handleNext sc) w) ∧
  adds_no remote_start w (exec (handlePrev sc) w).
Proof.
  intros Hnot.
  assert (Hplay : ∀ w index,
            adds_no remote_start w (exec (playTrackAtIndex sc index) w)).
  { clear w. intros w index. unfold playTrackAtIndex.
    destruct (sc_tracks sc !! index) as [track|]; [| apply adds_no_refl].
    rewrite (canUseSdk_not_ready sc track Hnot).
    wrun w; adds_no_solve. }
  split_and!.
  - apply Hplay.
  - unfold handleResume.
    destruct (currentIndex (ui w)) as [index|] eqn:Hi;
      [| mred; rewrite Hi; apply adds_no_refl].
    destruct (sc_tracks sc !! index) as [track|] eqn:Ht;
      [| mred; rewrite Hi, Ht; apply adds_no_refl].
    wsplit w. wred. rewrite Ht, (canUseSdk_not_ready sc track Hnot).
    repeat (mcase; simplify_eq; wred); adds_no_solve.
  - destruct (currentIndex (ui w)) as [i|] eqn:Hi.
    + rewrite (handleNext_spec sc w i Hi).
      destruct (_ <=? _); [apply adds_no_refl | apply Hplay].
    + unfold handleNext. mred. rewrite Hi. apply adds_no_refl.
  - destruct (currentIndex (ui w)) as [i|] eqn:Hi.
    + rewrite (handlePrev_spec sc w i Hi).
      destruct (_ =? _); [apply adds_no_refl | apply Hplay].
    + unfold handlePrev. mred. rewrite Hi. apply adds_no_refl.
Qed.

Lemma handlePause_no_remote_start sc w :
  adds_no remote_start w (exec (handlePause sc) w).
Proof. unfold handlePause. wrun w; adds_no_solve. Qed.

(** X8: in a state in which the player is not ready, or no device is
    known, no event that the current render handles requests a remote
    start: not a click on a row, on a row's button, on Play/Pause, Next
    or Prev, nor a selection or a notice from the player.  (Callbacks
    registered by an earlier render use the values of that render.) *)
Theorem no_remote_start_while_not_ready w e :
  playerReady (ui w) = false ∨ truthy (deviceId (ui w)) = false →
  continuation e = false →
  adds_no remote_start w (exec (step e) w).
Proof.
  intros Hnot He.
  assert (Hsc : sc_playerReady (scope_of w) = false
                ∨ truthy (sc_deviceId (scope_of w)) = false) by done.
  destruct (handlers_no_remote_start (scope_of w) w Hsc)
    as (Hplay & Hresume & Hnext & Hprev).
  pose proof (handlePause_no_remote_start (scope_of w) w) as Hpause.
  destruct e as [t | index | index | | | | playlistId | url | device_id | | h | h | n o];
    try discriminate He; clear He.
  - unfold step. wrun w; adds_no_solve.
  - change (exec (step (ClickRow index)) w)
      with (exec (match tracks (ui w) !! index with
                  | Some track =>
                      if isTrackPlayable track
                      then playTrackAtIndex (scope_of w) index else skip
                  | None => skip
                  end) w).
    destruct (tracks (ui w) !! index) as [track|]; [| apply adds_no_refl].
    destruct (isTrackPlayable track); [apply Hplay | apply adds_no_refl].
  - change (exec (step (ClickRowButton index)) w)
      with (exec (match tracks (ui w) !! index with
                  | Some track =>
                      if isTrackPlayable track
                      then handleRowPlayPause (scope_of w) index else skip
                  | None => skip
                  end) w).
    destruct (tracks (ui w) !! index) as [track|] eqn:Ht; [| apply adds_no_refl].
    destruct (isTrackPlayable track) eqn:Hp; [| apply adds_no_refl].
    unfold handleRowPlayPause. cbn [scope_of sc_tracks]. rewrite Ht, Hp.
    cbn [negb]. cbv [exec mbind M_bind get]. cbn [fst snd].
    destruct (bool_decide _ && isPlaying (ui w)); [apply Hpause |].
    destruct (bool_decide _ && negb (isPlaying (ui w)));
      [apply Hresume | apply Hplay].
  - change (exec (step ClickPlayPause) w)
      with (exec (match currentIndex (ui w) with
                  | None => skip
                  | Some _ => if isPlaying (ui w)
                              then handlePause (scope_of w)
                              else handleResume (scope_of w)
                  end) w).
    destruct (currentIndex (ui w)); [| apply adds_no_refl].
    destruct (isPlaying (ui w)); [apply Hpause | apply Hresume].
  - change (exec (step ClickNext) w)
      with (exec (match currentIndex (ui w) with
                  | None => skip
                  | Some i =>
                      if length (tracks (ui w)) <=? i + 1 then skip
                      else handleNext (scope_of w)
                  end) w).
    destruct (currentIndex (ui w)); [| apply adds_no_refl].
    destruct (_ <=? _); [apply adds_no_refl | apply Hnext].
  - change (exec (step ClickPrev) w)
      with (exec (match currentIndex (ui w) with
                  | None => skip
                  | Some i => if i =? 0 then skip else handlePrev (scope_of w)
                  end) w).
    destruct (currentIndex (ui w)); [| apply adds_no_refl].
    destruct (_ =? _); [apply adds_no_refl | apply Hprev].
  - unfold step, playlistEffect. wrun w; adds_no_solve.
  - unfold step. wrun w; adds_no_solve.
  - unfold step. wrun w; adds_no_solve.
  - unfold step. wrun w; adds_no_solve.
Qed.

End NoRemoteStart.

Lemma no_remote_start_while_not_ready_witness :
  adds_no remote_start noDeviceWorld (exec (step (ClickRow 0)) noDeviceWorld).
Proof.
  apply (no_remote_start_while_not_ready noDeviceWorld (ClickRow 0)).
  - left. reflexivity.
  - reflexivity.
Defined.

(** Why the callbacks of earlier renders are left out above: the player
    reports not ready while the advance chain of the first clip is on its
    way; the [playTrackAtIndex] that the chain calls is the one of the
    render that started the clip, and it requests a remote start. *)
Example chain_of_earlier_render_starts_remotely :
  playerReady (ui notReadyMidChain) = false ∧
  head (trace (env (after [Settle 6 Resolved] notReadyMidChain)))
    = Some (Fetch (PlayerPlay (Some "dev") (Some "tok")
                     (Some "spotify:track:b") SDK_CLIP_START_MS)
                  (SdkStarted (scope_of readyWorld) 1)).
Proof. vm_compute. split; reflexivity. Qed.

(** ** What the callbacks read from the state, and what from their scope *)

Section Captured.
Implicit Types (sc : Scope) (w : World).

Lemma scope_of_rerendered sc' w : scope_of (rerendered sc' w) = sc'.
Proof. by destruct sc'. Qed.

Lemma playAt_rerendered sc sc' index w :
  exec (playTrackAtIndex sc index) (rerendered sc' w)
    = rerendered sc' (exec (playTrackAtIndex sc index) w).
Proof. unfold playTrackAtIndex, rerendered. wrun w; reflexivity. Qed.

(** X9: [playTrackAtIndex] and the callbacks of the advance chain work on
    the track list, token, device and readiness of the render they were
    created in: a later render with other values in those four cells
    changes nothing of what they do (while a click in that render uses the
    new values). *)
Theorem chain_uses_captured_scope sc sc' index o w :
  exec (playTrackAtIndex sc index) (rerendered sc' w)
    = rerendered sc' (exec (playTrackAtIndex sc index) w) ∧
  exec (run (PlayNext sc index) o) (rerendered sc' w)
    = rerendered sc' (exec (run (PlayNext sc index) o) w) ∧
  exec (run (InBetweenDone sc index) o) (rerendered sc' w)
    = rerendered sc' (exec (run (InBetweenDone sc index) o) w) ∧
  ∀ track, sc_tracks sc' !! index = Some track →
           isTrackPlayable track = true →
           exec (step (ClickRow index)) (rerendered sc' w)
             = exec (playTrackAtIndex sc' index) (rerendered sc' w).
Proof.
  split_and!.
  - apply playAt_rerendered.
  - apply playAt_rerendered.
  - cbn [run]. unfold inBetweenDone. rewrite !exec_seq.
    rewrite <- playAt_rerendered. f_equal.
  - intros track Ht Hp. unfold step.
    cbv [exec mbind M_bind get]. cbn. rewrite Ht, Hp.
    by rewrite (scope_of_rerendered sc' w).
Qed.

End Captured.

(** ** When the in-between selection is read *)

Section Selection.
Implicit Types (sc : Scope) (w : World).


End Selection.

(** ** The playlist-tracks effect *)

Section Catalog.
Implicit Types (w : World) (all : list Track).

(** X11: with a token and a selected playlist the effect empties the
    track list, forgets the current index and the profiles, marks the
    tracks as loading and requests the first page at offset 0; it does not
    touch the refs, the intervals, the audio elements, the playing flag or
    the elapsed time, so a clip that is playing goes on.  Without a token
    or without a selection it does nothing. *)
Theorem playlistEffect_resets w :
  let w' := exec playlistEffect w in
  if truthy (accessToken (ui w)) && truthy (selectedPlaylistId (ui w)) then
    tracks (ui w') = [] ∧ currentIndex (ui w') = None ∧
    userProfiles (ui w') = ∅ ∧ tracksLoading (ui w') = true ∧
    head (trace (env w'))
      = Some (Fetch (PlaylistItems (selectedPlaylistId (ui w))
                       (accessToken (ui w)) 0)
                    (PageFetched (selectedPlaylistId (ui w))
                       (accessToken (ui w)) [] 0)) ∧
    refs w' = refs w ∧ intervals (env w') = intervals (env w) ∧
    audios (env w') = audios (env w) ∧
    isPlaying (ui w') = isPlaying (ui w) ∧
    clipElapsedMs (ui w') = clipElapsedMs (ui w)
  else w' = w.
Proof.
  intros w'. subst w'. unfold playlistEffect.
  destruct (truthy (accessToken (ui w))) eqn:Htok;
    destruct (truthy (selectedPlaylistId (ui w))) eqn:Hsel; cbn [andb];
    wsplit w; wred; rewrite Htok, Hsel; cbn [negb orb]; wred;
    first [done | by split_and!].
Qed.

(** [uniq] keeps one copy of every element that was not seen before. *)
Lemma uniq_spec xs : ∀ seen,
  NoDup (uniq seen xs) ∧ ∀ u, u ∈ uniq seen xs ↔ u ∈ xs ∧ u ∉ seen.
Proof.
  induction xs as [|x xs IH]; intros seen.
  - split; [constructor |]. intros u. cbn. rewrite elem_of_nil. tauto.
  - cbn [uniq]. case_bool_decide as Hx.
    + destruct (IH seen) as [Hnd Hin]. split; [done |].
      intros u. rewrite Hin, elem_of_cons. split; [tauto |].
      intros [[-> | ?] ?]; tauto.
    + destruct (IH (x :: seen)) as [Hnd Hin]. split.
      * constructor; [| done]. rewrite Hin, elem_of_cons. tauto.
      * intros u. rewrite !elem_of_cons, Hin, elem_of_cons.
        destruct (decide (u = x)) as [-> | Hne]; tauto.
Qed.

(** X12: the ids whose profiles are requested are the non-empty
    [addedById] of the tracks, each once. *)
Theorem userIdsOf_spec all :
  NoDup (userIdsOf all) ∧
  ∀ u, u ∈ userIdsOf all ↔
       u ≠ EmptyString ∧ ∃ tr, tr ∈ all ∧ addedById tr = Some u.
Proof.
  unfold userIdsOf. destruct (uniq_spec
    (omap (λ tr, if truthy (addedById tr) then addedById tr else None) all) [])
    as [Hnd Hin].
  split; [done |]. intros u. rewrite Hin, list_elem_of_omap.
  split.
  - intros [(tr & Htr & Hu) _]. unfold truthy in Hu.
    destruct (addedById tr) as [s|] eqn:Hs; [| done].
    destruct (String.eqb_spec s EmptyString) as [-> | Hne]; simplify_eq/=.
    split; [done | eauto].
  - intros (Hne & tr & Htr & Hs). split; [| apply not_elem_of_nil].
    exists tr. split; [done |]. rewrite Hs. cbn.
    by destruct (String.eqb_spec u EmptyString).
Qed.

End Catalog.

Section Profiles.
Implicit Types (userIds : list string)
  (responses : list (option ProfileJson)) (m : gmap string UserProfile).

Let store responses m (iu : nat * string) : gmap string UserProfile :=
  <[iu.2 := profileOf iu.2 (mjoin (responses !! iu.1))]> m.

Lemma profileMap_fold userIds responses :
  profileMap userIds responses
    = foldl (store responses) ∅ (imap (λ i uid, (i, uid)) userIds).
Proof.
  unfold profileMap. generalize (∅ : gmap string UserProfile).
  generalize (imap (λ i uid, (i, uid)) userIds).
  intros l. induction l as [|[i u] l IH]; intros m; [done |].
  cbn [foldl]. rewrite <- IH. f_equal.
  unfold store, profileOf. cbn. by destruct (mjoin (responses !! i)).
Qed.

Lemma store_other responses l : ∀ m u,
  u ∉ l.*2 → foldl (store responses) m l !! u = m !! u.
Proof.
  induction l as [|[i v] l IH]; intros m u Hu; [done |].
  cbn in *. rewrite not_elem_of_cons in Hu. destruct Hu as [Hne Hu].
  rewrite IH by done. unfold store. cbn. by rewrite lookup_insert_ne.
Qed.

Lemma store_entry responses l : ∀ m i u,
  NoDup l.*2 → (i, u) ∈ l →
  foldl (store responses) m l !! u
    = Some (profileOf u (mjoin (responses !! i))).
Proof.
  induction l as [|[j v] l IH]; intros m i u Hnd Hin.
  - by apply elem_of_nil in Hin.
  - cbn in *. apply NoDup_cons in Hnd as [Hv Hnd].
    apply elem_of_cons in Hin as [Heq | Hin].
    + simplify_eq. rewrite store_other by done.
      unfold store. cbn. by rewrite lookup_insert_eq.
    + by apply IH.
Qed.

Lemma store_dom responses l : ∀ m u,
  is_Some (foldl (store responses) m l !! u) ↔ u ∈ l.*2 ∨ is_Some (m !! u).
Proof.
  induction l as [|[j v] l IH]; intros m u.
  - cbn. rewrite elem_of_nil. tauto.
  - cbn [foldl fmap list_fmap]. rewrite IH, elem_of_cons. unfold store. cbn.
    rewrite lookup_insert. case_decide; simplify_eq.
    + split; [auto | intros _; right; eauto].
    + split; [tauto |]. intros [[-> | ?] | ?]; [done | tauto | tauto].
Qed.

Lemma imap_pairs_snd userIds :
  (imap (λ i uid, (i, uid)) userIds).*2 = userIds.
Proof.
  rewrite fmap_imap.
  rewrite (imap_ext _ (λ _ u, u)) by done.
  induction userIds as [|u l IH]; [done |].
  rewrite imap_cons. f_equal. exact IH.
Qed.

(** X13: [profileMap] has an entry for exactly the requested ids; when no
    id is requested twice, the entry of the id at position [i] is built
    from response [i]: its [display_name], else its [displayName], else
    its [id], else the requested id, with its first image; and for a
    missing or failed response the requested id with no image. *)
Theorem profileMap_spec userIds responses :
  (∀ u, is_Some (profileMap userIds responses !! u) ↔ u ∈ userIds) ∧
  (NoDup userIds →
   ∀ i u, userIds !! i = Some u →
     profileMap userIds responses !! u
       = Some (profileOf u (mjoin (responses !! i))) ∧
     (mjoin (responses !! i) = None →
      profileMap userIds responses !! u
        = Some {| displayName := u; imageUrl := None |})).
Proof.
  rewrite profileMap_fold. split.
  - intros u. rewrite store_dom, imap_pairs_snd, lookup_empty.
    split; [intros [? | [? ?]]; done | auto].
  - intros Hnd i u Hi.
    assert (Hentry : foldl (store responses) ∅
                       (imap (λ i uid, (i, uid)) userIds) !! u
                     = Some (profileOf u (mjoin (responses !! i)))).
    { apply store_entry; [by rewrite imap_pairs_snd |].
      by apply (elem_of_lookup_imap_2 (λ i uid, (i, uid))). }
    split; [done |]. intros Hnone. by rewrite Hentry, Hnone.
Qed.

End Profiles.

(** ** Pages of playlist items *)

Section Pages.
Implicit Types (w : World) (all : list Track) (p body : Page).

Lemma random_source_shift r n :
  random_source r → random_source (λ k, r (n + k)).
Proof. intros Hr k. apply Hr. Qed.

Lemma itemOffsets_cons e log :
  itemOffsets (e :: log)
    = itemOffsets log
      ++ match e with
         | Fetch (PlaylistItems _ _ offset) _ => [offset]
         | _ => []
         end.
Proof.
  unfold itemOffsets. rewrite reverse_cons, omap_app. f_equal.
  by destruct e as [[] ?| | | | | | | | |].
Qed.

(** The last [then]: the tracks are stored in some order, the loading
    flag is cleared, and no request for items is made. *)
Lemma tracksFetched_spec all w :
  random_source (rnd (env w)) →
  tracks (ui (exec (tracksFetched all) w)) ≡ₚ all ∧
  tracksLoading (ui (exec (tracksFetched all) w)) = false ∧
  itemOffsets (trace (env (exec (tracksFetched all) w)))
    = itemOffsets (trace (env w)) ∧
  rnd (env (exec (tracksFetched all) w)) = rnd (env w).
Proof.
  intros Hrnd.
  destruct (tracksFetched_stores all w) as [-> _].
  split; [by apply shuffled_perm, random_source_shift |].
  unfold tracksFetched. wrun w; split_and!; try done.
  rewrite itemOffsets_cons. by rewrite app_nil_r.
Qed.

(** X14: what the arrival of one page does.  A page with a successor adds
    its tracks to those collected and requests the next page 100 further,
    changing no state cell.  The last page stores all collected tracks, in
    some order, and clears the loading flag.  A page whose response is not
    ok is logged and the tracks collected so far are stored all the same.
    A rejected request is logged, clears the loading flag and leaves the
    track list as it was. *)
Theorem pageFetched_outcomes pid tok all offset w :
  random_source (rnd (env w)) →
  (∀ body, page_ok body = true → page_next body = true →
     let w' := exec (pageFetched pid tok all offset (GotPage body)) w in
     ui w' = ui w ∧
     trace (env w')
       = Fetch (PlaylistItems pid tok (offset + 100))
               (PageFetched pid tok (all ++ omap toTrack (page_items body))
                  (offset + 100))
         :: trace (env w)) ∧
  (∀ body, page_ok body = true → page_next body = false →
     let w' := exec (pageFetched pid tok all offset (GotPage body)) w in
     tracks (ui w') ≡ₚ all ++ omap toTrack (page_items body) ∧
     tracksLoading (ui w') = false) ∧
  (∀ body, page_ok body = false →
     let w' := exec (pageFetched pid tok all offset (GotPage body)) w in
     tracks (ui w') ≡ₚ all ∧ tracksLoading (ui w') = false ∧
     ConsoleError "[Spotify playlist items] Failed" ∈ trace (env w')) ∧
  (let w' := exec (pageFetched pid tok all offset Rejected) w in
   ui w' = cells_tracksLoading false (ui w) ∧
   trace (env w')
     = ConsoleError "[Spotify playlist items] Error" :: trace (env w)).
Proof.
  intros Hrnd. split_and!.
  - intros body Hok Hnext. cbn [pageFetched]. rewrite Hok, Hnext. by mred.
  - intros body Hok Hnext. cbn [pageFetched]. rewrite Hok, Hnext. cbn [negb].
    destruct (tracksFetched_spec (all ++ omap toTrack (page_items body)) w Hrnd)
      as (? & ? & _). done.
  - intros body Hok. cbn [pageFetched]. rewrite Hok. cbn [negb].
    rewrite exec_seq.
    set (w1 := exec (console_error "[Spotify playlist items] Failed") w).
    destruct (tracksFetched_spec all w1) as (? & ? & _); [done |].
    split_and!; [done | done |].
    assert (Hsuf : trace (env w1)
              `suffix_of` trace (env (exec (tracksFetched all) w1))).
    { unfold tracksFetched. clearbody w1. clear dependent w.
      wrun w1; repeat first [reflexivity | apply suffix_cons_r]. }
    destruct Hsuf as [later ->]. apply elem_of_app. right.
    subst w1. mred. apply elem_of_cons. by left.
  - cbn [pageFetched]. by mred.
Qed.

Lemma feedPages_collects pages : ∀ last pid tok all offset w,
  random_source (rnd (env w)) →
  head (trace (env w))
    = Some (Fetch (PlaylistItems pid tok offset)
                  (PageFetched pid tok all offset)) →
  Forall (λ p, page_ok p = true ∧ page_next p = true) pages →
  page_ok last = true → page_next last = false →
  tracks (ui (feedPages (pages ++ [last]) w))
    ≡ₚ all ++ collected (pages ++ [last]) ∧
  tracksLoading (ui (feedPages (pages ++ [last]) w)) = false ∧
  itemOffsets (trace (env (feedPages (pages ++ [last]) w)))
    = itemOffsets (trace (env w))
      ++ ((λ k, offset + 100 * S k) <$> seq 0 (length pages)).
Proof.
  induction pages as [|p pages IH];
    intros last pid tok all offset w Hrnd Hhead Hall Hok Hnext.
  - cbn [app feedPages]. rewrite Hhead. cbn [run pageFetched].
    rewrite Hok, Hnext. cbn [negb].
    destruct (tracksFetched_spec (all ++ omap toTrack (page_items last)) w Hrnd)
      as (Hperm & Hload & Hoff & _).
    unfold collected. cbn. rewrite !app_nil_r. done.
  - apply Forall_cons in Hall as [[Hpok Hpnext] Hall].
    cbn [app feedPages]. rewrite Hhead. cbn [run pageFetched].
    rewrite Hpok, Hpnext. cbn [negb].
    set (w1 := exec (fetch _ _) w).
    destruct (IH last pid tok (all ++ omap toTrack (page_items p))
                (offset + 100) w1) as (Hperm & Hload & Hoff); try done.
    split_and!.
    + rewrite Hperm. unfold collected. cbn. by rewrite app_assoc.
    + done.
    + rewrite Hoff. subst w1.
      change (trace (env (exec (fetch ?r ?k) w)))
        with (Fetch r k :: trace (env w)).
      rewrite itemOffsets_cons.
      cbn [length seq fmap list_fmap]. rewrite <- app_assoc. f_equal.
      cbn [app]. f_equal.
      rewrite <- fmap_S_seq, <- list_fmap_compose.
      apply list_fmap_ext. intros _ k _. cbn. lia.
Qed.

(** X15: after the effect has started, if the catalog answers each
    request with the next page (all ok, each but the last with a
    successor), then the tracks of all pages end up in the track list,
    none lost and none twice, in some order; the loading flag is cleared;
    and the pages were requested at offsets 0, 100, 200, ... *)
Theorem playlist_pages_collected w pages last :
  truthy (accessToken (ui w)) = true →
  truthy (selectedPlaylistId (ui w)) = true →
  random_source (rnd (env w)) →
  Forall (λ p, page_ok p = true ∧ page_next p = true) pages →
  page_ok last = true → page_next last = false →
  let w' := feedPages (pages ++ [last]) (exec playlistEffect w) in
  tracks (ui w') ≡ₚ collected (pages ++ [last]) ∧
  tracksLoading (ui w') = false ∧
  itemOffsets (trace (env w'))
    = itemOffsets (trace (env w))
      ++ ((λ k, 100 * k) <$> seq 0 (S (length pages))).
Proof.
  intros Htok Hsel Hrnd Hall Hok Hnext w'. subst w'.
  pose proof (playlistEffect_resets w) as Heff. cbn zeta in Heff.
  rewrite Htok, Hsel in Heff. cbn [andb] in Heff.
  destruct Heff as (_ & _ & _ & _ & Hhead & _).
  set (w0 := exec playlistEffect w) in *.
  assert (Hrnd0 : rnd (env w0) = rnd (env w)).
  { subst w0. unfold playlistEffect. clear Hhead. wrun w; done. }
  assert (Hoff0 : itemOffsets (trace (env w0))
                  = itemOffsets (trace (env w)) ++ [0]).
  { subst w0. unfold playlistEffect. clear Hhead Hrnd0.
    wsplit w. wred. rewrite Htok, Hsel. cbn [negb orb]. wred.
    by rewrite !itemOffsets_cons, app_nil_r. }
  destruct (feedPages_collects pages last (selectedPlaylistId (ui w))
              (accessToken (ui w)) [] 0 w0) as (Hperm & Hload & Hoff);
    try done; [by rewrite Hrnd0 |].
  split_and!; [done | done |].
  rewrite Hoff, Hoff0, <- app_assoc. f_equal.
  cbn [seq fmap list_fmap app]. f_equal.
  rewrite <- fmap_S_seq, <- list_fmap_compose.
  apply list_fmap_ext. intros _ k _. cbn. lia.
Qed.

End Pages.

Lemma pageFetched_outcomes_witness :
  tracks (ui (exec (pageFetched (Some "A") (Some "tok") [] 0 (GotPage pageA))
                   selectedWorld))
    ≡ₚ [] ++ omap toTrack (page_items pageA) ∧
  tracksLoading (ui (exec (pageFetched (Some "A") (Some "tok") [] 0
                             (GotPage pageA)) selectedWorld)) = false.
Proof.
  destruct (pageFetched_outcomes (Some "A") (Some "tok") [] 0 selectedWorld)
    as (_ & H & _).
  - intros k. split; vm_compute; [discriminate | reflexivity].
  - apply (H pageA); reflexivity.
Defined.

Lemma playlist_pages_collected_witness :
  tracks (ui (feedPages ([pageMore] ++ [pageA])
                (exec playlistEffect selectedWorld)))
    ≡ₚ collected ([pageMore] ++ [pageA]) ∧
  tracksLoading (ui (feedPages ([pageMore] ++ [pageA])
                       (exec playlistEffect selectedWorld))) = false ∧
  itemOffsets (trace (env (feedPages ([pageMore] ++ [pageA])
                             (exec playlistEffect selectedWorld))))
    = itemOffsets (trace (env selectedWorld))
      ++ ((λ k, 100 * k) <$> seq 0 (S (length [pageMore]))).
Proof.
  apply (playlist_pages_collected selectedWorld [pageMore] pageA).
  - reflexivity.
  - reflexivity.
  - intros k. split; vm_compute; [discriminate | reflexivity].
  - repeat constructor.
  - reflexivity.
  - reflexivity.
Defined.

(** ** The progress shown *)

Section Progress.
Implicit Types (w : World).

Lemma duration_positive w : duration_known w → (0 < clipDurationMs (ui w))%Q.
Proof. intros [-> | [-> _]]; reflexivity. Qed.

Lemma min1_le q : (min1 q <= 1)%Q.
Proof.
  unfold min1. destruct (Qle_bool 1 q) eqn:Hq; [apply Qle_refl |].
  apply Qlt_le_weak, Qnot_le_lt. intros Hle.
  apply Qle_bool_iff in Hle. congruence.
Qed.

(** X16: with a clip duration of 60 s or 30 s (as in every reachable
    state), the progress shown is 0 when no track is current and otherwise
    the elapsed share of the clip, never more than 1, not negative for a
    non-negative elapsed time, and exactly 1 once the elapsed time has
    reached the duration. *)
Theorem clipProgress_range w :
  duration_known w →
  (clipProgress w <= 1)%Q ∧
  (currentTrack w = None → clipProgress w = 0%Q) ∧
  (is_Some (currentTrack w) → (0 <= clipElapsedMs (ui w))%Q →
   (0 <= clipProgress w)%Q) ∧
  (is_Some (currentTrack w) →
   (clipDurationMs (ui w) <= clipElapsedMs (ui w))%Q →
   clipProgress w = 1%Q).
Proof.
  intros Hd. pose proof (duration_positive w Hd) as Hpos.
  unfold clipProgress. split_and!.
  - destruct (currentTrack w); [apply min1_le | discriminate].
  - by intros ->.
  - intros [tr ->] He. unfold min1.
    destruct (Qle_bool 1 _); [discriminate |].
    apply Qle_shift_div_l; [done |]. by rewrite Qmult_0_l.
  - intros [tr ->] He. unfold min1.
    assert (Hone : (1 <= clipElapsedMs (ui w) / clipDurationMs (ui w))%Q).
    { apply Qle_shift_div_l; [done |]. by rewrite Qmult_1_l. }
    apply Qle_bool_iff in Hone. by rewrite Hone.
Qed.

End Progress.

Lemma clipProgress_range_witness :
  (clipProgress playingAt20 <= 1)%Q ∧
  (is_Some (currentTrack playingAt20) →
   (0 <= clipElapsedMs (ui playingAt20))%Q →
   (0 <= clipProgress playingAt20)%Q).
Proof.
  destruct (clipProgress_range playingAt20) as (H1 & _ & H2 & _).
  - left. reflexivity.
  - split; [exact H1 | exact H2].
Defined.

(** ** Resuming *)

Section ResumeFrame.
Implicit Types (sc : Scope) (w : World).


End ResumeFrame.

(** ** Every order can come out of shuffle *)

Section ShuffleReach.
Context {T : Type}.
Implicit Types (l arr t : list T) (h : gmap positive (list T)).

(** The loop reads only the random numbers from call [calls] on. *)
Lemma shuffle_loop_ext rnd rnd' i : ∀ calls out h,
  (∀ k, calls ≤ k → rnd k = rnd' k) →
  shuffle_loop rnd calls i out h = shuffle_loop rnd' calls i out h.
Proof.
  induction i as [|i IH]; intros calls out h Hext; [done |].
  cbn [shuffle_loop]. rewrite (Hext calls) by lia.
  destruct (swap_in_place out (S i) _ h) as [h'|]; [| done].
  cbn. apply IH. intros k Hk. apply Hext. lia.
Qed.

(** The random number that selects index [j] among [0 .. i]. *)
Lemma random_index_choice i j :
  j ≤ i →
  let r := (Z.of_nat j # Pos.of_succ_nat i)%Q in
  (0 <= r)%Q ∧ (r < 1)%Q ∧ random_index r i = j.
Proof.
  intros Hj r. split_and!.
  - unfold Qle. cbn. lia.
  - unfold Qlt. cbn. lia.
  - unfold random_index, r, Qmult, inject_Z, Qfloor. cbn [Qnum Qden].
    rewrite Pos.mul_1_r.
    replace (Z.pos (Pos.of_succ_nat i)) with (Z.of_nat (i + 1)) by lia.
    rewrite Z.div_mul by lia. lia.
Qed.

Lemma perm_take n t arr :
  t ≡ₚ arr → drop n t = drop n arr → take n t ≡ₚ take n arr.
Proof.
  intros Hperm Hdrop.
  rewrite <- (take_drop n t), <- (take_drop n arr), Hdrop in Hperm.
  by apply Permutation_app_inv_r in Hperm.
Qed.

Lemma shuffle_loop_reaches i : ∀ calls out h arr t,
  h !! out = Some arr → i < length arr →
  t ≡ₚ arr → drop (S i) t = drop (S i) arr →
  ∃ rnd, random_source rnd ∧
         shuffle_loop rnd calls i out h = Some (<[out := t]> h).
Proof.
  induction i as [|i IH]; intros calls out h arr t Hout Hi Hperm Hdrop.
  - exists rnd_half.
    split; [intros k; split; vm_compute; [discriminate | reflexivity] |].
    cbn [shuffle_loop]. f_equal.
    assert (t = arr) as ->; [| by rewrite insert_id].
    pose proof (perm_take 1 t arr Hperm Hdrop) as Htake.
    destruct arr as [|a arr]; [simpl in Hi; lia |].
    destruct t as [|b t]; [by apply Permutation_nil_cons in Hperm |].
    simpl in Hdrop, Htake. apply Permutation_length_1 in Htake.
    rewrite !drop_0 in Hdrop. congruence.
  - pose proof (perm_take (S (S i)) t arr Hperm Hdrop) as Htake.
    assert (Hlen : length t = length arr) by by rewrite Hperm.
    destruct (lookup_lt_is_Some_2 t (S i)) as [x Hx]; [lia |].
    destruct (lookup_lt_is_Some_2 arr (S i) Hi) as [oi Hoi].
    assert (Hin : x ∈ take (S (S i)) arr).
    { rewrite <- Htake. apply list_elem_of_lookup. exists (S i).
      rewrite lookup_take_lt by lia. done. }
    apply list_elem_of_lookup in Hin as [j Hj].
    assert (Hjlt : j < S (S i)).
    { apply lookup_lt_Some in Hj. rewrite length_take in Hj. lia. }
    rewrite lookup_take_lt in Hj by done.
    destruct (random_index_choice (S i) j) as (Hr0 & Hr1 & Hrj); [lia |].
    set (r := (Z.of_nat j # Pos.of_succ_nat (S i))%Q) in *.
    set (arr' := <[j := oi]> (<[S i := x]> arr)).
    assert (Harr' : arr' !! S i = Some x).
    { unfold arr'. destruct (decide (j = S i)) as [-> | Hne].
      - rewrite list_lookup_insert_eq by (rewrite length_insert; lia).
        congruence.
      - rewrite list_lookup_insert_ne by done.
        by rewrite list_lookup_insert_eq by lia. }
    destruct (IH (S calls) out (<[out := arr']> h) arr' t)
      as (rnd' & Hrnd' & Hloop).
    { by rewrite lookup_insert_eq. }
    { unfold arr'. rewrite !length_insert. lia. }
    { rewrite Hperm. symmetry. by apply exchange_perm. }
    { rewrite (drop_S t x (S i) Hx), (drop_S arr' x (S i) Harr').
      f_equal. rewrite Hdrop. unfold arr'.
      by rewrite !drop_insert_lt by lia. }
    exists (λ k, if decide (k = calls) then r else rnd' k). split.
    + intros k. destruct (decide (k = calls)); [done | apply Hrnd'].
    + cbn [shuffle_loop]. rewrite decide_True by done. rewrite Hrj.
      unfold swap_in_place. rewrite Hout. cbn. rewrite Hj. cbn.
      rewrite Hoi. cbn. fold arr'.
      rewrite (shuffle_loop_ext _ rnd').
      * rewrite Hloop. by rewrite insert_insert_eq.
      * intros k Hk. rewrite decide_False by lia. done.
Qed.

(** X18: [shuffle] can return every order of its input: for each
    permutation of the input there is a sequence of results of
    [Math.random()], each in [0, 1), for which the returned array holds
    exactly that permutation. *)
Theorem shuffle_reaches_every_order l t :
  t ≡ₚ l → ∃ rnd, random_source rnd ∧ shuffled rnd l = t.
Proof.
  intros Hperm. destruct l as [|a l].
  - apply Permutation_nil_r in Hperm as ->. exists rnd_half.
    split; [intros k; split; vm_compute; [discriminate | reflexivity] |].
    unfold shuffled, shuffle. rewrite lookup_singleton_eq. cbn.
    by rewrite lookup_insert_eq.
  - set (h0 := ({[ 1%positive := a :: l ]} : gmap positive (list T))).
    set (out := fresh (dom h0)).
    destruct (shuffle_loop_reaches (length (a :: l) - 1) 0 out
                (<[out := a :: l]> h0) (a :: l) t)
      as (rnd & Hrnd & Hloop).
    + by rewrite lookup_insert_eq.
    + simpl. lia.
    + done.
    + rewrite !drop_ge; [done | simpl; lia |].
      rewrite Hperm. simpl. lia.
    + exists rnd. split; [done |].
      assert (Hh0 : h0 !! 1%positive = Some (a :: l))
        by apply lookup_singleton_eq.
      unfold shuffled, shuffle. fold h0. rewrite Hh0.
      cbn [mbind option_bind]. fold out. rewrite Hloop. cbn.
      by rewrite lookup_insert_eq.
Qed.

End ShuffleReach.

Lemma shuffle_reaches_every_order_witness :
  ∃ rnd, random_source rnd ∧ shuffled rnd [10; 20; 30] = [30; 10; 20].
Proof.
  apply (shuffle_reaches_every_order [10; 20; 30] [30; 10; 20]).
  etrans; [apply Permutation_swap | apply Permutation_skip, Permutation_swap].
Defined.
